(** * MemPointer: pointer decomposition and aliasing (opto/mempointer.hpp)

    A shallow embedding of the classes of [src/hotspot/share/opto/mempointer.hpp]:
    [MemPointerAliasing], [MemPointerSummand], [MemPointerDecomposedForm],
    [MemPointerDecomposedFormParser] and [MemPointer].

    Conventions.
    - A [jint] is a [Z] in the range [min_jint .. max_jint]; conversions that
      wrap are written with [to_jint].
    - The model is the debug build: an [assert] that fails aborts the VM.  A
      constructor or method that contains an [assert] returns an [option],
      [None] standing for the failed assertion.
    - A [Node*] is [option Node], [None] being [nullptr].  Two non-null
      pointers are the same pointer when the nodes have the same [_idx]
      (node indices are unique within one compilation). *)

From stdpp Require Import base option list.
From Stdlib Require Import ZArith Lia.
From Stdlib Require Import Sorting.Sorted Sorting.Permutation.

Local Open Scope Z_scope.

(** ** Machine integers *)

Definition min_jint : Z := - 2 ^ 31.
Definition max_jint : Z := 2 ^ 31 - 1.

(** Conversion of an integer to [jint], wrapping around modulo [2^32]. *)
Definition to_jint (z : Z) : Z := (z + 2 ^ 31) mod 2 ^ 32 - 2 ^ 31.

(** An [assert] of the debug build. *)
Definition assert_ok (b : bool) : option unit := if b then Some tt else None.

(** ** NoOverflowInt *)

Module NoOverflowInt.

(** Modelled from the spec: the class [NoOverflowInt] of
    [opto/noOverflowInt.hpp], which is not among the sources.  The spec's
    bounded-overflow integer wraps a fixed-width signed integer (a [jint]
    here, as the distances of [MemPointerAliasing] are): an operation whose
    mathematical result does not fit, or that has an invalid operand, gives
    the invalid value [NaN]. *)
Inductive t : Type :=
| NaN : t
| Int (value : Z) : t.

Definition make_NaN : t := NaN.

(** [NoOverflowInt(value)]: [NaN] when [value] does not fit a [jint]. *)
Definition make (value : Z) : t :=
  if (min_jint <=? value) && (value <=? max_jint) then Int value else NaN.

Definition is_NaN (a : t) : bool :=
  match a with NaN => true | Int _ => false end.

(** The zero-check on an invalid value is false. *)
Definition is_zero (a : t) : bool :=
  match a with NaN => false | Int v => v =? 0 end.

Definition add (a b : t) : t :=
  match a, b with
  | Int x, Int y => make (x + y)
  | _, _ => NaN
  end.

Definition sub (a b : t) : t :=
  match a, b with
  | Int x, Int y => make (x - y)
  | _, _ => NaN
  end.

Definition mul (a b : t) : t :=
  match a, b with
  | Int x, Int y => make (x * y)
  | _, _ => NaN
  end.

(** [2^c] as a bounded-overflow integer (the factor of a left shift by the
    constant [c]). *)
Definition pow2 (c : Z) : t :=
  if c <? 0 then NaN else make (2 ^ c).

(** Two values compare unequal if either is invalid. *)
Definition eq (a b : t) : bool :=
  match a, b with
  | Int x, Int y => x =? y
  | _, _ => false
  end.

End NoOverflowInt.

(** ** The expression graph *)

(** Modelled from the spec: the operator kinds the core queries of a node of
    the host expression graph ([opto/node.hpp] is not among the sources). *)
Inductive Opcode : Type :=
| Op_Literal
| Op_Add
| Op_Subtract
| Op_ScalarMultiply
| Op_LeftShift
| Op_WideningConvert
| Op_Opaque.

(** Modelled from the spec: a node of the expression graph with its index
    [_idx], its operator and the operator's static operands.  A node that is
    the input of several nodes (a shared sub-expression) occurs once under
    each of them, with the same [_idx]. *)
Inductive Node : Type :=
| Node_Literal (idx : Z) (value : Z)
| Node_Add (idx : Z) (a b : Node)
| Node_Subtract (idx : Z) (a b : Node)
| Node_ScalarMultiply (idx : Z) (a : Node) (multiplier : Z)
| Node_LeftShift (idx : Z) (a : Node) (shift : Z)
| Node_WideningConvert (idx : Z) (a : Node)
| Node_Opaque (idx : Z).

Definition _idx (n : Node) : Z :=
  match n with
  | Node_Literal idx _ | Node_Add idx _ _ | Node_Subtract idx _ _
  | Node_ScalarMultiply idx _ _ | Node_LeftShift idx _ _
  | Node_WideningConvert idx _ | Node_Opaque idx => idx
  end.

(** The structural size of an expression. *)
Fixpoint node_size (n : Node) : nat :=
  match n with
  | Node_Literal _ _ | Node_Opaque _ => 1
  | Node_Add _ a b | Node_Subtract _ a b => S (node_size a + node_size b)
  | Node_ScalarMultiply _ a _ | Node_LeftShift _ a _
  | Node_WideningConvert _ a => S (node_size a)
  end.

(** The operator kind of a node. *)
Definition opcode (n : Node) : Opcode :=
  match n with
  | Node_Literal _ _ => Op_Literal
  | Node_Add _ _ _ => Op_Add
  | Node_Subtract _ _ _ => Op_Subtract
  | Node_ScalarMultiply _ _ _ => Op_ScalarMultiply
  | Node_LeftShift _ _ _ => Op_LeftShift
  | Node_WideningConvert _ _ => Op_WideningConvert
  | Node_Opaque _ => Op_Opaque
  end.

(** [Node*]. *)
Definition NodePtr : Type := option Node.
Definition nullptr : NodePtr := None.

Definition is_nullptr (p : NodePtr) : bool :=
  match p with None => true | Some _ => false end.

(** [p == q] on [Node*]. *)
Definition same_node (p q : NodePtr) : bool :=
  match p, q with
  | None, None => true
  | Some n, Some m => _idx n =? _idx m
  | _, _ => false
  end.

(** Modelled from the spec: what the core reads of a memory access
    ([opto/memnode.hpp] is not among the sources): whether it is a store,
    its address input and the byte width of the access. *)
Record MemNode : Type := mkMemNode {
  is_Store : bool;
  in_Address : Node;
  memory_size : Z
}.

(** ** MemPointerAliasing *)

Module MemPointerAliasing.

Inductive Aliasing : Type :=
| Unknown
| Always.

Definition Aliasing_eqb (a b : Aliasing) : bool :=
  match a, b with
  | Unknown, Unknown | Always, Always => true
  | _, _ => false
  end.

Record t : Type := mk {
  _aliasing : Aliasing;
  _distance : Z
}.

(** [MemPointerAliasing(aliasing, distance)], with its assertion. *)
Definition ctor (aliasing : Aliasing) (distance : Z) : option t :=
  let max_distance := Z.shiftl 1 30 in
  _ ← assert_ok ((distance <? max_distance) && (distance >? - max_distance));
  Some (mk aliasing distance).

Definition make_unknown : option t := ctor Unknown 0.

Definition make_always (distance : Z) : option t := ctor Always distance.

Definition is_always_at_distance (self : t) (distance : Z) : bool :=
  Aliasing_eqb (_aliasing self) Always && (_distance self =? distance).

End MemPointerAliasing.

(** ** MemPointerSummand *)

Module MemPointerSummand.

Record t : Type := mk {
  _variable : NodePtr;
  _scale : NoOverflowInt.t
}.

(** [MemPointerSummand()]. *)
Definition empty : t := mk nullptr NoOverflowInt.make_NaN.

(** [MemPointerSummand(variable, scale)], with its two assertions. *)
Definition ctor (variable : NodePtr) (scale : NoOverflowInt.t) : option t :=
  _ ← assert_ok (negb (is_nullptr variable));
  _ ← assert_ok (negb (NoOverflowInt.is_zero scale));
  Some (mk variable scale).

(** The difference of two [_idx] is computed on 32-bit unsigned integers and
    returned as an [int]. *)
Definition cmp_for_sort (p1 p2 : t) : Z :=
  match _variable p1, _variable p2 with
  | None, None => 0
  | None, Some _ => 1
  | Some _, None => -1
  | Some n1, Some n2 => to_jint (_idx n1 - _idx n2)
  end.

Definition operator_eq (a b : t) : bool :=
  if is_nullptr (_variable a) && is_nullptr (_variable b) then true
  else if negb (same_node (_variable a) (_variable b)) then false
  else NoOverflowInt.eq (_scale a) (_scale b).

Definition operator_ne (a b : t) : bool := negb (operator_eq a b).

End MemPointerSummand.

(** ** MemPointerDecomposedForm *)

Module MemPointerDecomposedForm.

Definition SUMMANDS_SIZE : nat := 10.

(** [_summands] is an array of [SUMMANDS_SIZE] summands: a list of that
    length, written by index. *)
Record t : Type := mk {
  _pointer : NodePtr;
  _summands : list MemPointerSummand.t;
  _con : NoOverflowInt.t
}.

(** The array as its declaration leaves it: every slot default-constructed. *)
Definition empty_summands : list MemPointerSummand.t :=
  replicate SUMMANDS_SIZE MemPointerSummand.empty.

(** [MemPointerDecomposedForm()]: the empty form. *)
Definition ctor_empty : t :=
  mk nullptr empty_summands NoOverflowInt.make_NaN.

(** [MemPointerDecomposedForm(pointer)]: the trivial form
    [pointer = 0 + 1 * pointer]. *)
Definition ctor_trivial (pointer : NodePtr) : option t :=
  _ ← assert_ok (negb (is_nullptr pointer));
  s ← MemPointerSummand.ctor pointer (NoOverflowInt.make 1);
  Some (mk pointer (<[0%nat := s]> empty_summands) (NoOverflowInt.make 0)).

(** The loop of the private constructor, from index [i] on. *)
Fixpoint copy_summands (i : nat) (summands : list MemPointerSummand.t)
    (array : list MemPointerSummand.t) : option (list MemPointerSummand.t) :=
  match summands with
  | [] => Some array
  | s :: rest =>
      _ ← assert_ok (negb (is_nullptr (MemPointerSummand._variable s)));
      _ ← assert_ok (negb (NoOverflowInt.is_NaN (MemPointerSummand._scale s)));
      copy_summands (S i) rest (<[i := s]> array)
  end.

(** [MemPointerDecomposedForm(pointer, summands, con)], the private
    constructor. *)
Definition ctor_summands (pointer : NodePtr)
    (summands : list MemPointerSummand.t) (con : NoOverflowInt.t) : option t :=
  _ ← assert_ok (negb (NoOverflowInt.is_NaN con));
  _ ← assert_ok (length summands <=? SUMMANDS_SIZE)%nat;
  array ← copy_summands 0 summands empty_summands;
  Some (mk pointer array con).

Definition make (pointer : NodePtr) (summands : list MemPointerSummand.t)
    (con : NoOverflowInt.t) : option t :=
  if (length summands <=? SUMMANDS_SIZE)%nat
  then ctor_summands pointer summands con
  else ctor_trivial pointer.

Definition summands_at (self : t) (i : nat) : option MemPointerSummand.t :=
  _ ← assert_ok (i <? SUMMANDS_SIZE)%nat;
  _summands self !! i.

(** Modelled from the spec: the sort of the comparator, by
    [MemPointerSummand::cmp_for_sort] (stable: a summand is put before the
    first one it does not compare greater than). *)
Fixpoint insert_summand (s : MemPointerSummand.t)
    (sorted : list MemPointerSummand.t) : list MemPointerSummand.t :=
  match sorted with
  | [] => [s]
  | x :: rest =>
      if MemPointerSummand.cmp_for_sort s x <=? 0
      then s :: x :: rest
      else x :: insert_summand s rest
  end.

Definition sort_summands (summands : list MemPointerSummand.t)
  : list MemPointerSummand.t :=
  foldr insert_summand [] summands.

(** Modelled from the spec: exact pairwise equality of two summand
    sequences; sequences of different lengths are unequal. *)
Fixpoint summands_equal (l1 l2 : list MemPointerSummand.t) : bool :=
  match l1, l2 with
  | [], [] => true
  | s1 :: r1, s2 :: r2 =>
      if MemPointerSummand.operator_ne s1 s2 then false else summands_equal r1 r2
  | _, _ => false
  end.

(** Modelled from the spec: [get_aliasing_with] is declared in the header and
    defined in [mempointer.cpp], which is not among the sources.  The
    distance is that of [other] from [self]: [other.con - self.con]. *)
Definition get_aliasing_with (self other : t) : option MemPointerAliasing.t :=
  if negb (summands_equal (sort_summands (_summands self))
                          (sort_summands (_summands other)))
  then MemPointerAliasing.make_unknown
  else
    match NoOverflowInt.sub (_con other) (_con self) with
    | NoOverflowInt.NaN => MemPointerAliasing.make_unknown
    | NoOverflowInt.Int distance =>
        if Z.abs distance <? 2 ^ 30
        then MemPointerAliasing.make_always distance
        else MemPointerAliasing.make_unknown
    end.

End MemPointerDecomposedForm.

(** ** MemPointerDecomposedFormParser *)

Module MemPointerDecomposedFormParser.

(** The parser's internal data structures. *)
Record state : Type := mk {
  _con : NoOverflowInt.t;
  _worklist : list MemPointerSummand.t;
  _summands : list MemPointerSummand.t
}.

(** What one decomposition step leaves: the next state, the decision to fall
    back to the trivial form, or a failed assertion. *)
Inductive step_result : Type :=
| Continue (st : state)
| Bailout
| Failed.

(** What the worklist loop leaves. *)
Inductive parse_result : Type :=
| Parsed (st : state)
| ToTrivial
| AssertFailed
| NoFuel.

Definition and_then (r : step_result) (k : state → step_result) : step_result :=
  match r with
  | Continue st => k st
  | Bailout => Bailout
  | Failed => Failed
  end.

Section Parser.

(** Modelled from the spec: [is_safe_to_decompose_op] is defined in
    [mempointer.cpp]; which operators are safe at which scale is a policy of
    the compiler, left open here. *)
Variable is_safe_to_decompose_op : Opcode → NoOverflowInt.t → bool.

(** Modelled from the spec: a sub-summand goes back onto the worklist.  An
    overflown scale makes the parse fall back; a zero-scale contribution is
    dropped. *)
Definition push_summand (variable : Node) (scale : NoOverflowInt.t)
    (st : state) : step_result :=
  if NoOverflowInt.is_NaN scale then Bailout
  else if NoOverflowInt.is_zero scale then Continue st
  else
    match MemPointerSummand.ctor (Some variable) scale with
    | Some s => Continue (mk (_con st) (s :: _worklist st) (_summands st))
    | None => Failed
    end.

(** Modelled from the spec: a terminal summand is merged into the output:
    its scale is added to that of an entry of the same variable (the entry is
    dropped when the sum is zero), and it is appended otherwise, unless the
    output is full. *)
Definition add_terminal (summand : MemPointerSummand.t) (st : state)
  : step_result :=
  let variable := MemPointerSummand._variable summand in
  match list_find
          (λ x, same_node (MemPointerSummand._variable x) variable = true)
          (_summands st) with
  | Some (i, x) =>
      let scale :=
        NoOverflowInt.add (MemPointerSummand._scale x)
                          (MemPointerSummand._scale summand) in
      if NoOverflowInt.is_NaN scale then Bailout
      else if NoOverflowInt.is_zero scale
      then Continue (mk (_con st) (_worklist st) (delete i (_summands st)))
      else
        match MemPointerSummand.ctor variable scale with
        | Some s =>
            Continue (mk (_con st) (_worklist st) (<[i := s]> (_summands st)))
        | None => Failed
        end
  | None =>
      if (MemPointerDecomposedForm.SUMMANDS_SIZE <=? length (_summands st))%nat
      then Bailout
      else Continue (mk (_con st) (_worklist st) (_summands st ++ [summand]))
  end.

(** Modelled from the spec: one decomposition step on the summand popped
    from the worklist. *)
Definition parse_sub_expression (st : state) (summand : MemPointerSummand.t)
  : step_result :=
  let scale := MemPointerSummand._scale summand in
  match MemPointerSummand._variable summand with
  | None => Failed
  | Some n =>
      match n with
      | Node_Literal _ value =>
          let con :=
            NoOverflowInt.add (_con st)
              (NoOverflowInt.mul scale (NoOverflowInt.make value)) in
          if NoOverflowInt.is_NaN con then Bailout
          else Continue (mk con (_worklist st) (_summands st))
      | Node_Add _ a b =>
          if is_safe_to_decompose_op Op_Add scale
          then and_then (push_summand a scale st) (push_summand b scale)
          else add_terminal summand st
      | Node_Subtract _ a b =>
          if is_safe_to_decompose_op Op_Subtract scale
          then and_then (push_summand a scale st)
                 (push_summand b (NoOverflowInt.sub (NoOverflowInt.make 0) scale))
          else add_terminal summand st
      | Node_ScalarMultiply _ a multiplier =>
          if is_safe_to_decompose_op Op_ScalarMultiply scale
          then push_summand a
                 (NoOverflowInt.mul scale (NoOverflowInt.make multiplier)) st
          else add_terminal summand st
      | Node_LeftShift _ a shift =>
          if is_safe_to_decompose_op Op_LeftShift scale
          then push_summand a
                 (NoOverflowInt.mul scale (NoOverflowInt.pow2 shift)) st
          else add_terminal summand st
      | Node_WideningConvert _ a =>
          if is_safe_to_decompose_op Op_WideningConvert scale
          then push_summand a scale st
          else add_terminal summand st
      | Node_Opaque _ => add_terminal summand st
      end
  end.

(** Modelled from the spec: the worklist loop.  [fuel] bounds the number of
    summands popped. *)
Fixpoint parse_loop (fuel : nat) (st : state) : parse_result :=
  match _worklist st with
  | [] => Parsed st
  | summand :: worklist =>
      match fuel with
      | O => NoFuel
      | S fuel' =>
          match parse_sub_expression (mk (_con st) worklist (_summands st))
                  summand with
          | Continue st' => parse_loop fuel' st'
          | Bailout => ToTrivial
          | Failed => AssertFailed
          end
      end
  end.

(** The steps of the loop, in order: the state each popped summand is
    decomposed in, and the summand. *)
Fixpoint steps (fuel : nat) (st : state) : list (state * MemPointerSummand.t) :=
  match _worklist st, fuel with
  | summand :: worklist, S fuel' =>
      let st1 := mk (_con st) worklist (_summands st) in
      (st1, summand) ::
      match parse_sub_expression st1 summand with
      | Continue st' => steps fuel' st'
      | _ => []
      end
  | _, _ => []
  end.

(** The indices of the nodes popped from the worklist, in order. *)
Definition visited (fuel : nat) (st : state) : list Z :=
  (λ step, from_option _idx 0 (MemPointerSummand._variable step.2))
    <$> steps fuel st.

(** The value the running constant takes in a step: a literal is folded
    into it, scaled. *)
Definition accumulated_con (step : state * MemPointerSummand.t)
  : NoOverflowInt.t :=
  match MemPointerSummand._variable step.2 with
  | Some (Node_Literal _ value) =>
      NoOverflowInt.add (_con step.1)
        (NoOverflowInt.mul (MemPointerSummand._scale step.2)
           (NoOverflowInt.make value))
  | _ => _con step.1
  end.

(** The structural size of the worklist. *)
Definition summand_size (s : MemPointerSummand.t) : nat :=
  from_option node_size 1%nat (MemPointerSummand._variable s).

Definition worklist_size (st : state) : nat :=
  sum_list_with summand_size (_worklist st).

(** The state the parse starts from: the constant 0, the trivial summand on
    the worklist, no terminal summand. *)
Definition initial_state (pointer : Node) : option state :=
  s ← MemPointerSummand.ctor (Some pointer) (NoOverflowInt.make 1);
  Some (mk (NoOverflowInt.make 0) [s] []).

(** Modelled from the spec: [parse_decomposed_form] is defined in
    [mempointer.cpp].  The loop runs on as much fuel as the structural size
    of the pointer expression. *)
Definition parse_decomposed_form (mem : MemNode)
  : option MemPointerDecomposedForm.t :=
  let pointer := in_Address mem in
  st ← initial_state pointer;
  match parse_loop (node_size pointer) st with
  | Parsed st' =>
      MemPointerDecomposedForm.make (Some pointer) (_summands st') (_con st')
  | ToTrivial => MemPointerDecomposedForm.ctor_trivial (Some pointer)
  | AssertFailed | NoFuel => None
  end.

(** [MemPointerDecomposedFormParser(mem)] followed by [decomposed_form()]. *)
Definition decomposed_form (mem : MemNode) : option MemPointerDecomposedForm.t :=
  parse_decomposed_form mem.

End Parser.

End MemPointerDecomposedFormParser.

(** ** MemPointer *)

Module MemPointer.

Record t : Type := mk {
  _mem : MemNode;
  _decomposed_form : MemPointerDecomposedForm.t
}.

Section Facade.

Variable is_safe_to_decompose_op : Opcode → NoOverflowInt.t → bool.

Definition init_decomposed_form (mem : MemNode)
  : option MemPointerDecomposedForm.t :=
  _ ← assert_ok (is_Store mem);
  MemPointerDecomposedFormParser.decomposed_form is_safe_to_decompose_op mem.

(** [MemPointer(mem)]. *)
Definition ctor (mem : MemNode) : option t :=
  form ← init_decomposed_form mem;
  Some (mk mem form).

End Facade.

(** Modelled from the spec: [is_adjacent_to_and_before] is defined in
    [mempointer.cpp].  The comparator's verdict on [other] and [self] is
    the distance of [other] from [self]: in [distance = B.con - A.con] the
    form [A] is that of [self] and [B] that of [other], so that a distance
    of the byte width of [self]'s access means that [self] ends where
    [other] begins. *)
Definition is_adjacent_to_and_before (self other : t) : option bool :=
  aliasing ← MemPointerDecomposedForm.get_aliasing_with
               (_decomposed_form self) (_decomposed_form other);
  Some (MemPointerAliasing.is_always_at_distance aliasing
          (memory_size (_mem self))).

End MemPointer.

(** ** What a decomposed form denotes

    The definitions of the "MemPointer Lemma" of the header: the value of a
    decomposed form [con + sum_i(scale_i * variable_i)], safe decompositions
    and memory objects. *)

Section Denotation.

(** The run-time value of the node of a given [_idx]. *)
Variable env : Z → Z.

Definition summand_value (s : MemPointerSummand.t) : Z :=
  match MemPointerSummand._variable s, MemPointerSummand._scale s with
  | Some n, NoOverflowInt.Int scale => scale * env (_idx n)
  | _, _ => 0
  end.

Definition sum_summands (summands : list MemPointerSummand.t) : Z :=
  foldr (λ s acc, summand_value s + acc) 0 summands.

Definition con_value (con : NoOverflowInt.t) : Z :=
  match con with NoOverflowInt.Int c => c | NoOverflowInt.NaN => 0 end.

Definition form_value (mp : MemPointerDecomposedForm.t) : Z :=
  con_value (MemPointerDecomposedForm._con mp)
  + sum_summands (MemPointerDecomposedForm._summands mp).

End Denotation.

(** A memory object: its first address, its size, and for an array the
    size of its elements. *)
Record MemoryObject : Type := mkMemoryObject {
  object_base : Z;
  object_size_in_bytes : Z;
  array_element_size_in_bytes : option Z
}.

(** An array has fewer than [2^31] elements. *)
Definition max_possible_array_size_in_bytes (element_size : Z) : Z :=
  element_size * 2 ^ 31.

Definition valid_object (obj : MemoryObject) : Prop :=
  match array_element_size_in_bytes obj with
  | Some element_size =>
      1 <= element_size
      ∧ object_size_in_bytes obj <= max_possible_array_size_in_bytes element_size
  | None => True
  end.

(** (S1) for one pointer: it lies within the bounds of the object. *)
Definition in_bounds (obj : MemoryObject) (p : Z) : Prop :=
  object_base obj <= p <= object_base obj + object_size_in_bytes obj.

(** A safe decomposition from [mp_i] to [mp_{i+1}], on their values. *)
Inductive safe_decomposition (obj : MemoryObject) : Z → Z → Prop :=
| SAFE1 (mp_i : Z) : safe_decomposition obj mp_i mp_i
| SAFE2 (element_size x mp_i mp_i1 : Z) :
    array_element_size_in_bytes obj = Some element_size →
    mp_i = mp_i1 + x * element_size * 2 ^ 32 →
    safe_decomposition obj mp_i mp_i1.

(** A pointer of value [p] is decomposed into a form of value [mp] by safe
    decompositions, starting from the trivial form [0 + 1 * p]. *)
Inductive safely_decomposed (obj : MemoryObject) : Z → Z → Prop :=
| decomposed_trivial (p : Z) : safely_decomposed obj p p
| decomposed_step (mp_i mp_i1 mp_n : Z) :
    safe_decomposition obj mp_i mp_i1 →
    safely_decomposed obj mp_i1 mp_n →
    safely_decomposed obj mp_i mp_n.

(** (S3): all summands of the two forms are identical, as the comparator
    checks it. *)
Definition summands_identical (mp1 mp2 : MemPointerDecomposedForm.t) : bool :=
  MemPointerDecomposedForm.summands_equal
    (MemPointerDecomposedForm.sort_summands (MemPointerDecomposedForm._summands mp1))
    (MemPointerDecomposedForm.sort_summands (MemPointerDecomposedForm._summands mp2)).

(** ** What the parser may decompose *)

Section SafePolicy.

Variable is_safe_to_decompose_op : Opcode → NoOverflowInt.t → bool.

(** The run-time value of the node of a given [_idx]. *)
Variable env : Z → Z.

Variable obj : MemoryObject.

(** Modelled from the spec: what the operator of a node makes of the values
    of its inputs when nothing overflows: [a + b], [a - b], [a * constant],
    [a * 2^c] for [a << c], and [a] for a widening conversion; a literal has
    its value. *)
Definition exact_value (n : Node) : Z :=
  match n with
  | Node_Literal _ value => value
  | Node_Add _ a b => env (_idx a) + env (_idx b)
  | Node_Subtract _ a b => env (_idx a) - env (_idx b)
  | Node_ScalarMultiply _ a multiplier => env (_idx a) * multiplier
  | Node_LeftShift _ a shift => env (_idx a) * 2 ^ shift
  | Node_WideningConvert _ a => env (_idx a)
  | Node_Opaque idx => env idx
  end.

(** Modelled from the spec: the contract of [is_safe_to_decompose_op] at a
    node.  Where it returns true for the operator of the node and a scale,
    replacing the summand [scale * node] by the operator applied to the
    inputs is a safe decomposition (SAFE1 or SAFE2): [is_safe_to_decompose_op]
    itself is defined in [mempointer.cpp]. *)
Definition safe_at (n : Node) : Prop :=
  ∀ scale : Z,
    is_safe_to_decompose_op (opcode n) (NoOverflowInt.Int scale) = true →
    safe_decomposition obj (scale * env (_idx n)) (scale * exact_value n).

(** [is_safe_to_decompose_op] keeps its contract at every operator of a
    pointer expression, and the literals of the expression have their
    values. *)
Fixpoint decomposable (n : Node) : Prop :=
  match n with
  | Node_Literal idx value => env idx = value
  | Node_Add _ a b | Node_Subtract _ a b =>
      safe_at n ∧ decomposable a ∧ decomposable b
  | Node_ScalarMultiply _ a _ | Node_LeftShift _ a _
  | Node_WideningConvert _ a => safe_at n ∧ decomposable a
  | Node_Opaque _ => True
  end.

Definition summand_decomposable (s : MemPointerSummand.t) : Prop :=
  match MemPointerSummand._variable s with
  | Some n => decomposable n
  | None => True
  end.

(** The value of the parser's state: the running constant, the summands
    still on the worklist and the terminal summands. *)
Definition state_value (st : MemPointerDecomposedFormParser.state) : Z :=
  con_value (MemPointerDecomposedFormParser._con st)
  + sum_summands env (MemPointerDecomposedFormParser._worklist st)
  + sum_summands env (MemPointerDecomposedFormParser._summands st).

End SafePolicy.

(** The run-time values of the nodes of a table, 0 for every other node. *)
Definition table_env (table : list (Z * Z)) (idx : Z) : Z :=
  from_option snd 0 (List.find (λ entry, entry.1 =? idx) table).

(** Same term identity and equal scale: both summands are empty, or their
    variables are the same node and their scales the same valid value. *)
Definition same_term_and_scale (a b : MemPointerSummand.t) : Prop :=
  match MemPointerSummand._variable a, MemPointerSummand._variable b with
  | None, None => True
  | Some n, Some m =>
      _idx n = _idx m
      ∧ ∃ scale, MemPointerSummand._scale a = NoOverflowInt.Int scale
                 ∧ MemPointerSummand._scale b = NoOverflowInt.Int scale
  | _, _ => False
  end.

(** Exact pairwise equality of two summand sequences: equal counts, and the
    same term identity and an equal scale at each position. *)
Definition sequences_equal (l1 l2 : list MemPointerSummand.t) : Prop :=
  length l1 = length l2
  ∧ ∀ (i : nat) a b, l1 !! i = Some a → l2 !! i = Some b →
                     same_term_and_scale a b.

(** ** Orders on summands *)

(** The order [MemPointerSummand::cmp_for_sort] decides. *)
Definition summand_le (a b : MemPointerSummand.t) : Prop :=
  MemPointerSummand.cmp_for_sort a b <= 0.

(** The order by term identity: by [_idx], empty summands last. *)
Definition identity_le (a b : MemPointerSummand.t) : Prop :=
  match MemPointerSummand._variable a, MemPointerSummand._variable b with
  | Some n, Some m => _idx n <= _idx m
  | Some _, None => True
  | None, Some _ => False
  | None, None => True
  end.

(** The node indices for which the difference computed by [cmp_for_sort]
    does not wrap around. *)
Definition idx_in_range (s : MemPointerSummand.t) : Prop :=
  match MemPointerSummand._variable s with
  | Some n => 0 <= _idx n < 2 ^ 31
  | None => True
  end.

(** [sorted] is [summands] sorted by term identity, empty summands last: a
    permutation, in the order [cmp_for_sort] decides, in which only empty
    summands follow an empty summand, and which is in the order of the
    [_idx] when those are in range. *)
Definition sorted_by_identity (summands sorted : list MemPointerSummand.t)
  : Prop :=
  sorted ≡ₚ summands
  ∧ Sorted summand_le sorted
  ∧ (∀ (i j : nat) a b,
       (i < j)%nat → sorted !! i = Some a → sorted !! j = Some b →
       MemPointerSummand._variable a = nullptr →
       MemPointerSummand._variable b = nullptr)
  ∧ (Forall idx_in_range summands → StronglySorted identity_le sorted).

(** Pairwise equality of two summand sequences by [operator==]. *)
Definition pairwise_equal (l1 l2 : list MemPointerSummand.t) : Prop :=
  Forall2 (λ a b, MemPointerSummand.operator_eq a b = true) l1 l2.

(** What the private constructor of [MemPointerDecomposedForm] asserts of a
    summand. *)
Definition stored_ok (s : MemPointerSummand.t) : Prop :=
  is_nullptr (MemPointerSummand._variable s) = false
  ∧ NoOverflowInt.is_NaN (MemPointerSummand._scale s) = false.

(** What the parser keeps of every summand it holds: a term, and a scale
    that is valid and not zero. *)
Definition valid_summand (s : MemPointerSummand.t) : Prop :=
  stored_ok s ∧ NoOverflowInt.is_zero (MemPointerSummand._scale s) = false.

(** The invariant of the parser's loop. *)
Definition state_ok (st : MemPointerDecomposedFormParser.state) : Prop :=
  NoOverflowInt.is_NaN (MemPointerDecomposedFormParser._con st) = false
  ∧ Forall valid_summand (MemPointerDecomposedFormParser._worklist st)
  ∧ Forall valid_summand (MemPointerDecomposedFormParser._summands st)
  ∧ (length (MemPointerDecomposedFormParser._summands st)
       ≤ MemPointerDecomposedForm.SUMMANDS_SIZE)%nat.

(** An expression in which the node of index 2, [x + 4], is the input of
    the node of index 3 twice: [(x + 4) + (x + 4)]. *)
Definition shared_expression : Node :=
  Node_Add 3
    (Node_Add 2 (Node_Opaque 0) (Node_Literal 1 4))
    (Node_Add 2 (Node_Opaque 0) (Node_Literal 1 4)).

(** The policy under which every decomposable operator is decomposed. *)
Definition decompose_all : Opcode → NoOverflowInt.t → bool := λ _ _, true.

(** Two accesses to one byte array, [2^30] bytes apart: the array at
    address 4096 (node 10), the pointers [array + 16] (node 1) and
    [array + 16 + 2^30] (node 2), and their decomposed forms
    [16 + 1 * array] and [(16 + 2^30) + 1 * array]. *)
Definition far_array : Node := Node_Opaque 10.
Definition far_p1 : Node := Node_Add 1 far_array (Node_Literal 11 16).
Definition far_p2 : Node := Node_Add 2 far_array (Node_Literal 12 (16 + 2 ^ 30)).

Definition far_env : Z → Z :=
  table_env [(10, 4096); (1, 4096 + 16); (2, 4096 + 16 + 2 ^ 30);
             (11, 16); (12, 16 + 2 ^ 30)].

Definition far_object : MemoryObject :=
  mkMemoryObject 4096 (2 ^ 30 + 64) (Some 1).

Definition far_mp1 : MemPointerDecomposedForm.t :=
  MemPointerDecomposedForm.mk (Some far_p1)
    (MemPointerSummand.mk (Some far_array) (NoOverflowInt.Int 1)
       :: replicate 9 MemPointerSummand.empty)
    (NoOverflowInt.Int 16).

Definition far_mp2 : MemPointerDecomposedForm.t :=
  MemPointerDecomposedForm.mk (Some far_p2)
    (MemPointerSummand.mk (Some far_array) (NoOverflowInt.Int 1)
       :: replicate 9 MemPointerSummand.empty)
    (NoOverflowInt.Int (16 + 2 ^ 30)).

(** The example of the header: an [int] array at address 1000 (node 10), an
    index [i = 5] (node 11), and the pointers of [array[i + 0]] and
    [array[i + 1]], [array + 16 + 4 * ConvI2L(i + k)]. *)
Definition near_array : Node := Node_Opaque 10.
Definition near_index : Node := Node_Opaque 11.

Definition near_pointer (idx k : Z) : Node :=
  Node_Add idx
    (Node_Add (idx + 1) near_array (Node_Literal (idx + 2) 16))
    (Node_ScalarMultiply (idx + 3)
       (Node_WideningConvert (idx + 4)
          (Node_Add (idx + 5) near_index (Node_Literal (idx + 6) k)))
       4).

Definition near_p1 : Node := near_pointer 100 0.
Definition near_p2 : Node := near_pointer 200 1.

Definition near_env : Z → Z :=
  table_env [(10, 1000); (11, 5);
             (100, 1000 + 16 + 4 * 5); (101, 1000 + 16); (102, 16);
             (103, 4 * 5); (104, 5); (105, 5); (106, 0);
             (200, 1000 + 16 + 4 * (5 + 1)); (201, 1000 + 16); (202, 16);
             (203, 4 * (5 + 1)); (204, 5 + 1); (205, 5 + 1); (206, 1)].

Definition near_object : MemoryObject := mkMemoryObject 1000 (16 + 4 * 100) (Some 4).

Definition near_form (pointer : Node) (con : Z) : MemPointerDecomposedForm.t :=
  MemPointerDecomposedForm.mk (Some pointer)
    (MemPointerSummand.mk (Some near_index) (NoOverflowInt.Int 4)
       :: MemPointerSummand.mk (Some near_array) (NoOverflowInt.Int 1)
       :: replicate 8 MemPointerSummand.empty)
    (NoOverflowInt.Int con).

(** A policy of the kind the header describes: an operator is decomposed
    at the scales that are multiples of the element size of the array. *)
Definition scale_multiple_of (element_size : Z)
  : Opcode → NoOverflowInt.t → bool :=
  λ _ scale,
    match scale with
    | NoOverflowInt.Int k => k mod element_size =? 0
    | NoOverflowInt.NaN => false
    end.

(** The index [i = 2^31 - 1] of the [int] array: the addition [i + 1]
    (node 5) wraps around to [-2^31], which the conversion (node 4) widens
    and the multiplication (node 3) scales by 4 without overflow. *)
Definition wrapped_add : Node := Node_Add 5 near_index (Node_Literal 6 1).

Definition wrapped_env : Z → Z :=
  table_env [(11, 2 ^ 31 - 1); (6, 1); (5, - 2 ^ 31); (4, - 2 ^ 31);
             (3, - 2 ^ 31 * 4)].

(** A summand the private constructor of [MemPointerDecomposedForm] fails
    an assertion on. *)
Definition refused_summand (s : MemPointerSummand.t) : Prop :=
  MemPointerSummand._variable s = nullptr
  ∨ NoOverflowInt.is_NaN (MemPointerSummand._scale s) = true.

(** The trivial form [{term: pointer, scale: 1, constant: 0}]. *)
Definition trivial_form (pointer : Node) : MemPointerDecomposedForm.t :=
  MemPointerDecomposedForm.mk (Some pointer)
    (MemPointerSummand.mk (Some pointer) (NoOverflowInt.Int 1)
       :: replicate 9 MemPointerSummand.empty)
    (NoOverflowInt.Int 0).

(** ** RegionsTree (nmt/regionsTree.hpp, nmt/regionsTree.cpp)

    The tree is a [VMATree]: a search tree of nodes keyed by their position,
    each with the state of the memory before it ([in]) and after it
    ([out]).  [nmt/vmatree.hpp] is not among the sources: a node is the
    record of what [NodeHelper] reads of it, the tree is the list of its
    nodes in ascending order of position, and the values of the enumerators
    of [VMATree::StateType] are left open. *)

Module RegionsTree.

(** [size_t], and [VMATree::position]: unsigned 64-bit integers. *)
Definition to_size_t (z : Z) : Z := z mod 2 ^ 64.

(** A [NativeCallStackStorage::StackIndex], a [NativeCallStack] (the pcs of
    its frames) and a [MemTag] (the value of the enumerator). *)
Definition StackIndex : Type := Z.
Definition NativeCallStack : Type := list Z.
Definition MemTag : Type := Z.

(** [VMATree::IntervalState]: [type()] as the [uint8_t] of the
    [StateType], [stack()] and [mem_tag()]. *)
Record IntervalState : Type := mkIntervalState {
  state_type : Z;
  state_stack : StackIndex;
  state_mem_tag : MemTag
}.

(** [VMATree::TreapNode]: [key()], [val().in] and [val().out]. *)
Record Node : Type := mkNode {
  key : Z;
  val_in : IntervalState;
  val_out : IntervalState
}.

Record ReservedMemoryRegion : Type := mkReservedMemoryRegion {
  rmr_base : Z;
  rmr_size : Z;
  rmr_stack : NativeCallStack;
  rmr_mem_tag : MemTag
}.

Record CommittedMemoryRegion : Type := mkCommittedMemoryRegion {
  cmr_base : Z;
  cmr_size : Z;
  cmr_stack : NativeCallStack
}.

(** [NodeHelper]: its [_node], [None] being [nullptr].  A method that
    dereferences [_node] has no result on an invalid helper. *)
Definition NodeHelper : Type := option Node.

Definition is_valid (h : NodeHelper) : bool :=
  match h with Some _ => true | None => false end.

Definition clear_node (h : NodeHelper) : NodeHelper := None.

Definition position (h : NodeHelper) : option Z :=
  node ← h; Some (key node).

Definition in_state (h : NodeHelper) : option Z :=
  node ← h; Some (state_type (val_in node)).

Definition out_state (h : NodeHelper) : option Z :=
  node ← h; Some (state_type (val_out node)).

Definition distance_from (self other : NodeHelper) : option Z :=
  p ← position self; q ← position other; Some (to_size_t (p - q)).

Definition out_stack_index (h : NodeHelper) : option StackIndex :=
  node ← h; Some (state_stack (val_out node)).

Definition in_flag (h : NodeHelper) : option MemTag :=
  node ← h; Some (state_mem_tag (val_in node)).

Definition out_flag (h : NodeHelper) : option MemTag :=
  node ← h; Some (state_mem_tag (val_out node)).

(** [VMATree::visit_in_order] (and [visit_range_in_order] on the nodes of
    the range): the callback is called on the nodes in ascending order,
    until it returns [false].  The callback [f] takes and returns the
    variables it captures by reference. *)
Fixpoint visit_in_order {St : Type} (f : St → Node → option (St * bool))
    (nodes : list Node) (st : St) : option St :=
  match nodes with
  | [] => Some st
  | node :: rest =>
      match f st node with
      | Some (st', continue) =>
          if continue then visit_in_order f rest st' else Some st'
      | None => None
      end
  end.

(** The callback that appends every region to a list and goes on. *)
Definition collect {R : Type} (acc : list R) (region : R) : list R * bool :=
  (acc ++ [region], true).

(** The callback [func] called on the regions of a list in turn, until it
    returns [false]. *)
Fixpoint call_until_false {S R : Type} (func : S → R → S * bool) (s : S)
    (regions : list R) : S :=
  match regions with
  | [] => s
  | region :: rest =>
      let r := func s region in
      if r.2 then call_until_false func r.1 rest else r.1
  end.

(** The regions a scan of the nodes emits, for a step that updates local
    variables and may emit a region. *)
Fixpoint scan {L R : Type} (step : L → Node → L * option R) (l : L)
    (nodes : list Node) : list R :=
  match nodes with
  | [] => []
  | node :: rest =>
      option_list (step l node).2 ++ scan step (step l node).1 rest
  end.

(** The nodes of reservations that do not touch: for each, the node it
    begins at and the node it ends at. *)
Definition reservation_nodes (reservations : list (Node * Node)) : list Node :=
  flat_map (λ bc, [bc.1; bc.2]) reservations.

(** Regions in ascending order that do not overlap. *)
Definition reserved_disjoint (regions : list ReservedMemoryRegion) : Prop :=
  StronglySorted (λ r1 r2, rmr_base r1 + rmr_size r1 <= rmr_base r2) regions.

(** The sum of the sizes of committed regions. *)
Definition committed_bytes (regions : list CommittedMemoryRegion) : Z :=
  foldr (λ r acc, cmr_size r + acc) 0 regions.

(** The positions of the nodes ascend, within [size_t]. *)
Definition keys_ascending (nodes : list Node) : Prop :=
  StronglySorted (λ a b, key a < key b) nodes
  ∧ Forall (λ n, 0 <= key n < 2 ^ 64) nodes.

Definition out_tag (node : Node) : MemTag := state_mem_tag (val_out node).

(** The local variables the callback of [visit_reserved_regions] captures,
    with the pairs [(r_size, rgn_size)] the debug log is given. *)
Record reserved_locals : Type := mkReservedLocals {
  r_begin_node : NodeHelper;
  r_prev : NodeHelper;
  r_rgn_size : Z;
  r_log : list (Z * Z)
}.

(** The local variables the callback of [visit_committed_regions]
    captures. *)
Record committed_locals : Type := mkCommittedLocals {
  c_prev : NodeHelper;
  c_base : Z;
  c_comm_size : Z
}.

Section Model.

(** The values of [StateType::Released], [StateType::Reserved] and
    [StateType::Committed]. *)
Variables StateType_Released StateType_Reserved StateType_Committed : Z.

(** [NativeCallStackStorage::is_invalid], [_ncs_storage.get] and
    [NativeCallStack::empty_stack()]. *)
Variable storage_is_invalid : StackIndex → bool.
Variable storage_get : StackIndex → NativeCallStack.
Variable empty_stack : NativeCallStack.

Definition is_committed_begin (h : NodeHelper) : option bool :=
  s ← out_state h; Some (Z.land s StateType_Committed >=? 2).

Definition is_released_begin (h : NodeHelper) : option bool :=
  s ← out_state h; Some (s =? StateType_Released).

Definition is_reserved_begin (h : NodeHelper) : option bool :=
  s ← out_state h; Some (Z.land s StateType_Reserved =? 1).

(** [RegionsTree::stack]. *)
Definition stack (node : NodeHelper) : option NativeCallStack :=
  si ← out_stack_index node;
  Some (if negb (storage_is_invalid si) then storage_get si else empty_stack).

(** The callback of [visit_reserved_regions] on one node. *)
Definition visit_reserved_lambda {S : Type}
    (func : S → ReservedMemoryRegion → S * bool)
    (st : reserved_locals * S) (node : Node)
  : option ((reserved_locals * S) * bool) :=
  let l := st.1 in
  let curr : NodeHelper := Some node in
  (if is_valid (r_prev l)
   then distance_from curr (r_prev l) ≫= λ d : Z,
        Some (r_begin_node l, to_size_t (r_rgn_size l + d))
   else Some (curr, 0)) ≫= λ gr : NodeHelper * Z,
  let begin_node : NodeHelper := gr.1 in
  let rgn_size : Z := gr.2 in
  let prev := curr in
  is_released_begin curr ≫= λ released : bool,
  (if released then Some true
   else out_flag begin_node ≫= λ f1 : MemTag,
        out_flag curr ≫= λ f2 : MemTag,
        Some (negb (f1 =? f2))) ≫= λ differs : bool,
  if differs then
    stack curr ≫= λ stk : NativeCallStack,
    distance_from curr begin_node ≫= λ r_size : Z,
    let log := if negb (r_size =? rgn_size)
               then r_log l ++ [(r_size, rgn_size)] else r_log l in
    if rgn_size =? 0
    then Some ((mkReservedLocals begin_node (clear_node prev) rgn_size log,
                st.2), true)
    else
      position begin_node ≫= λ base : Z,
      out_flag begin_node ≫= λ flag : MemTag,
      let rmr := mkReservedMemoryRegion base rgn_size stk flag in
      let r := func st.2 rmr in
      if negb r.2
      then Some ((mkReservedLocals begin_node prev rgn_size log, r.1), false)
      else if negb released
      then Some ((mkReservedLocals curr prev 0 log, r.1), true)
      else Some ((mkReservedLocals (clear_node begin_node) (clear_node prev)
                    0 log, r.1), true)
  else Some ((mkReservedLocals begin_node prev rgn_size (r_log l), st.2), true).

(** [visit_reserved_regions], with the local variables it ends with. *)
Definition visit_reserved_regions_state {S : Type}
    (func : S → ReservedMemoryRegion → S * bool) (s : S) (tree : list Node)
  : option (reserved_locals * S) :=
  visit_in_order (visit_reserved_lambda func) tree
    (mkReservedLocals None None 0 [], s).

Definition visit_reserved_regions {S : Type}
    (func : S → ReservedMemoryRegion → S * bool) (s : S) (tree : list Node)
  : option S :=
  visit_reserved_regions_state func s tree ≫= λ r : reserved_locals * S,
  Some r.2.

(** The callback of [visit_committed_regions] on one node. *)
Definition visit_committed_lambda {S : Type}
    (func : S → CommittedMemoryRegion → S * bool)
    (st : committed_locals * S) (node : Node)
  : option ((committed_locals * S) * bool) :=
  let l := st.1 in
  let curr : NodeHelper := Some node in
  if is_valid (c_prev l) then
    position (c_prev l) ≫= λ base : Z,
    is_committed_begin (c_prev l) ≫= λ prev_committed : bool,
    if prev_committed then
      distance_from curr (c_prev l) ≫= λ d : Z,
      let comm_size := to_size_t (c_comm_size l + d) in
      is_committed_begin curr ≫= λ curr_committed : bool,
      if negb curr_committed then
        stack curr ≫= λ stk : NativeCallStack,
        let cmr := mkCommittedMemoryRegion base comm_size stk in
        let r := func st.2 cmr in
        if negb r.2
        then Some ((mkCommittedLocals (clear_node (c_prev l)) base 0, r.1), false)
        else Some ((mkCommittedLocals curr base 0, r.1), true)
      else Some ((mkCommittedLocals curr base comm_size, st.2), true)
    else Some ((mkCommittedLocals curr base (c_comm_size l), st.2), true)
  else Some ((mkCommittedLocals curr (c_base l) (c_comm_size l), st.2), true).

(** [visit_committed_regions] on the nodes [visited] that
    [visit_range_in_order(start, end, ...)] calls back in the tree, for the
    region [rgn] of which [start] is the base. *)
Definition visit_committed_regions {S : Type} (rgn : ReservedMemoryRegion)
    (func : S → CommittedMemoryRegion → S * bool) (s : S)
    (visited : list Node) : option S :=
  let start := to_size_t (rmr_base rgn) in
  visit_in_order (visit_committed_lambda func) visited
    (mkCommittedLocals None start 0, s) ≫= λ r : committed_locals * S,
  Some r.2.

(** The regions [visit_reserved_regions] and [visit_committed_regions]
    call back with, when the callback always returns [true]. *)
Definition reserved_regions (tree : list Node)
  : option (list ReservedMemoryRegion) :=
  visit_reserved_regions collect [] tree.

Definition committed_regions (rgn : ReservedMemoryRegion) (visited : list Node)
  : option (list CommittedMemoryRegion) :=
  visit_committed_regions rgn collect [] visited.

(** The predicates and the stack of [NodeHelper], on a node. *)
Definition released_node (node : Node) : bool :=
  state_type (val_out node) =? StateType_Released.

Definition committed_node (node : Node) : bool :=
  Z.land (state_type (val_out node)) StateType_Committed >=? 2.

Definition stack_of_node (node : Node) : NativeCallStack :=
  if negb (storage_is_invalid (state_stack (val_out node)))
  then storage_get (state_stack (val_out node)) else empty_stack.

(** What the local variables of [visit_reserved_regions] keep: nothing is
    logged, and while [prev] is valid so is [begin_node], [rgn_size] being
    the distance between the two. *)
Definition reserved_locals_ok (l : reserved_locals) : Prop :=
  r_log l = []
  ∧ match r_prev l with
    | Some p =>
        ∃ b, r_begin_node l = Some b
             ∧ r_rgn_size l = to_size_t (key p - key b)
    | None => True
    end.

(** The callback of [visit_reserved_regions] as a step on local variables
    that are [reserved_locals_ok]: the local variables it leaves when the
    visit goes on, and the region it calls [func] with, if any. *)
Definition reserved_step (l : reserved_locals) (node : Node)
  : reserved_locals * option ReservedMemoryRegion :=
  let b := match r_prev l with
           | Some _ => default node (r_begin_node l)
           | None => node
           end in
  let size := match r_prev l with
              | Some _ => to_size_t (key node - key b)
              | None => 0
              end in
  if released_node node || negb (out_tag b =? out_tag node) then
    if size =? 0 then (mkReservedLocals (Some b) None size [], None)
    else (if released_node node
          then mkReservedLocals None None 0 []
          else mkReservedLocals (Some node) (Some node) 0 [],
          Some (mkReservedMemoryRegion (key b) size (stack_of_node node)
                  (out_tag b)))
  else (mkReservedLocals (Some b) (Some node) size [], None).

(** The reserved region from the node [b] to the node [c]: it begins at
    [b], which does not begin released memory, has the tag of [b], ends at
    [c], which begins released memory or memory of another tag, and has the
    stack of [c]. *)
Definition reserved_from_to (b c : Node) (r : ReservedMemoryRegion) : Prop :=
  released_node b = false
  ∧ key b < key c
  ∧ rmr_base r = key b
  ∧ rmr_size r = key c - key b
  ∧ rmr_mem_tag r = out_tag b
  ∧ rmr_stack r = stack_of_node c
  ∧ (released_node c = true ∨ out_tag c ≠ out_tag b).

(** A reservation as its two nodes, and the region between them. *)
Definition reservation_ok (bc : Node * Node) : Prop :=
  released_node bc.1 = false
  ∧ released_node bc.2 = true
  ∧ 0 < key bc.2 - key bc.1 < 2 ^ 64.

Definition reservation_region (bc : Node * Node) : ReservedMemoryRegion :=
  mkReservedMemoryRegion (key bc.1) (key bc.2 - key bc.1)
    (stack_of_node bc.2) (out_tag bc.1).

(** The callback of [visit_committed_regions] as a step on its local
    variables. *)
Definition committed_step (l : committed_locals) (node : Node)
  : committed_locals * option CommittedMemoryRegion :=
  match c_prev l with
  | Some p =>
      if committed_node p then
        let size := to_size_t (c_comm_size l + to_size_t (key node - key p)) in
        if committed_node node
        then (mkCommittedLocals (Some node) (key p) size, None)
        else (mkCommittedLocals (Some node) (key p) 0,
              Some (mkCommittedMemoryRegion (key p) size (stack_of_node node)))
      else (mkCommittedLocals (Some node) (key p) (c_comm_size l), None)
  | None => (mkCommittedLocals (Some node) (c_base l) (c_comm_size l), None)
  end.

(** The committed segments of a sequence of nodes: from every node that
    begins committed memory to the node after it, with the stack of that
    node. *)
Fixpoint committed_segments (nodes : list Node) : list CommittedMemoryRegion :=
  match nodes with
  | p :: (c :: _) as rest =>
      (if committed_node p
       then [mkCommittedMemoryRegion (key p) (key c - key p) (stack_of_node c)]
       else [])
      ++ committed_segments rest
  | _ => []
  end.

(** [ReservedMemoryRegion::contain_address] and the default-constructed
    [ReservedMemoryRegion()] ([nmt/vmtCommon.hpp] is not among the
    sources). *)
Variable contain_address : ReservedMemoryRegion → Z → bool.
Variable default_region : ReservedMemoryRegion.

(** The callback [contain_region] of [find_reserved_region]; the trace
    output is left out. *)
Definition contain_region (addr : Z) (rmr region_in_tree : ReservedMemoryRegion)
  : ReservedMemoryRegion * bool :=
  if contain_address region_in_tree addr
  then (region_in_tree, false)
  else (rmr, true).

(** [RegionsTree::find_reserved_region]. *)
Definition find_reserved_region (addr : Z) (tree : list Node)
  : option ReservedMemoryRegion :=
  visit_reserved_regions (contain_region addr) default_region tree.

End Model.

End RegionsTree.

(** The trees of [test_regions_tree.cpp], with [Released = 0],
    [Reserved = 1] and [Committed = 3] for the states, the tag 7 for
    [mtTest], and a storage in which the stack of index [i >= 0] is [[i]]:
    four reservations of 50 bytes, and four commits of 5 bytes in the
    first. *)
Definition test_released : RegionsTree.IntervalState :=
  RegionsTree.mkIntervalState 0 (-1) 0.
Definition test_reserved : RegionsTree.IntervalState :=
  RegionsTree.mkIntervalState 1 5 7.
Definition test_committed : RegionsTree.IntervalState :=
  RegionsTree.mkIntervalState 3 6 7.

Definition test_is_invalid (si : RegionsTree.StackIndex) : bool := si <? 0.
Definition test_get (si : RegionsTree.StackIndex) : RegionsTree.NativeCallStack :=
  [si].

Definition test_reservation (base size : Z)
  : RegionsTree.Node * RegionsTree.Node :=
  (RegionsTree.mkNode base test_released test_reserved,
   RegionsTree.mkNode (base + size) test_reserved test_released).

Definition test_reservations : list (RegionsTree.Node * RegionsTree.Node) :=
  [test_reservation 1000 50; test_reservation 1200 50;
   test_reservation 1300 50; test_reservation 1400 50].

Definition test_commit (base size : Z) : list RegionsTree.Node :=
  [RegionsTree.mkNode base test_reserved test_committed;
   RegionsTree.mkNode (base + size) test_committed test_reserved].

Definition test_committed_nodes : list RegionsTree.Node :=
  [RegionsTree.mkNode 1000 test_released test_reserved]
  ++ test_commit 1010 5 ++ test_commit 1020 5
  ++ test_commit 1030 5 ++ test_commit 1040 5
  ++ [RegionsTree.mkNode 1050 test_reserved test_released].

(** Two commits that touch, with different stacks: [1010, 1015) and
    [1015, 1025). *)
Definition test_committed_run : list RegionsTree.Node :=
  [RegionsTree.mkNode 1010 test_reserved test_committed;
   RegionsTree.mkNode 1015 test_committed
     (RegionsTree.mkIntervalState 3 9 7)].

(** * Properties *)

(** ** Assertions and bounded-overflow integers *)

Lemma assert_ok_Some (b : bool) (u : unit) : assert_ok b = Some u ↔ b = true.
Proof. destruct b, u; simpl; split; congruence. Qed.

Lemma assert_ok_true (b : bool) : b = true → assert_ok b = Some tt.
Proof. intros ->. reflexivity. Qed.

Lemma make_fits (v : Z) :
  min_jint <= v <= max_jint → NoOverflowInt.make v = NoOverflowInt.Int v.
Proof.
  intros Hv. unfold NoOverflowInt.make.
  destruct (Z.leb_spec min_jint v), (Z.leb_spec v max_jint); simpl; auto; lia.
Qed.

Lemma make_Int (v w : Z) :
  NoOverflowInt.make v = NoOverflowInt.Int w → w = v ∧ min_jint <= v <= max_jint.
Proof.
  unfold NoOverflowInt.make.
  destruct (Z.leb_spec min_jint v), (Z.leb_spec v max_jint); simpl;
    intros Heq; inversion Heq; subst; lia.
Qed.

Lemma is_NaN_false (a : NoOverflowInt.t) :
  NoOverflowInt.is_NaN a = false ↔ ∃ v, a = NoOverflowInt.Int v.
Proof.
  destruct a; simpl; split; try congruence; eauto.
  intros [v Hv]. discriminate.
Qed.

(** ** The verdict *)

Lemma aliasing_ctor_spec (aliasing : MemPointerAliasing.Aliasing) (distance : Z) :
  MemPointerAliasing.ctor aliasing distance =
    if bool_decide (- 2 ^ 30 < distance < 2 ^ 30)
    then Some (MemPointerAliasing.mk aliasing distance)
    else None.
Proof.
  unfold MemPointerAliasing.ctor.
  change (Z.shiftl 1 30) with (2 ^ 30).
  case_bool_decide as Hd.
  - rewrite assert_ok_true; [reflexivity|].
    apply andb_true_intro. split; [apply Z.ltb_lt | apply Z.gtb_gt]; lia.
  - destruct (Z.ltb_spec distance (2 ^ 30)); simpl; [|reflexivity].
    destruct (Z.gtb_spec distance (- 2 ^ 30)); simpl; [lia | reflexivity].
Qed.

Lemma make_unknown_Some :
  MemPointerAliasing.make_unknown =
    Some (MemPointerAliasing.mk MemPointerAliasing.Unknown 0).
Proof. reflexivity. Qed.

Lemma make_always_Some (distance : Z) :
  - 2 ^ 30 < distance < 2 ^ 30 →
  MemPointerAliasing.make_always distance =
    Some (MemPointerAliasing.mk MemPointerAliasing.Always distance).
Proof.
  intros Hd. unfold MemPointerAliasing.make_always.
  rewrite aliasing_ctor_spec, bool_decide_true by done. reflexivity.
Qed.

(** The comparator either reports [Unknown], or reports [Always] with the
    difference of the constants, which is then in the narrow range. *)
Lemma get_aliasing_with_cases (self other : MemPointerDecomposedForm.t) :
  MemPointerDecomposedForm.get_aliasing_with self other
    = MemPointerAliasing.make_unknown
  ∨ ∃ distance,
      - 2 ^ 30 < distance < 2 ^ 30
      ∧ NoOverflowInt.sub (MemPointerDecomposedForm._con other)
          (MemPointerDecomposedForm._con self) = NoOverflowInt.Int distance
      ∧ summands_identical self other = true
      ∧ MemPointerDecomposedForm.get_aliasing_with self other
          = MemPointerAliasing.make_always distance.
Proof.
  unfold MemPointerDecomposedForm.get_aliasing_with, summands_identical.
  destruct (MemPointerDecomposedForm.summands_equal _ _); simpl; [|by left].
  destruct (NoOverflowInt.sub _ _) as [|distance]; [by left|].
  destruct (Z.ltb_spec (Z.abs distance) (2 ^ 30)); [|by left].
  right. exists distance. repeat split; auto; lia.
Qed.

(** C5: every constructed [MemPointerAliasing] has a distance strictly
    between [-2^30] and [2^30] (the constructor's assertion fails on any
    other distance), and the comparator never trips that assertion: it
    returns a verdict for every pair of forms, built either by
    [make_unknown] or by [make_always] on a distance within the range. *)
Theorem verdict_distance_bound :
  (∀ aliasing distance,
     MemPointerAliasing.ctor aliasing distance =
       if bool_decide (- 2 ^ 30 < distance < 2 ^ 30)
       then Some (MemPointerAliasing.mk aliasing distance)
       else None)
  ∧ (∀ aliasing distance verdict,
       MemPointerAliasing.ctor aliasing distance = Some verdict →
       Z.abs (MemPointerAliasing._distance verdict) < 2 ^ 30)
  ∧ (∀ self other,
       is_Some (MemPointerDecomposedForm.get_aliasing_with self other)
       ∧ (MemPointerDecomposedForm.get_aliasing_with self other
            = MemPointerAliasing.make_unknown
          ∨ ∃ distance,
              - 2 ^ 30 < distance < 2 ^ 30
              ∧ MemPointerDecomposedForm.get_aliasing_with self other
                  = MemPointerAliasing.make_always distance)).
Proof.
  split; [exact aliasing_ctor_spec|]. split.
  - intros aliasing distance verdict. rewrite aliasing_ctor_spec.
    case_bool_decide as Hd; [|discriminate].
    intros [= <-]. simpl. lia.
  - intros self other.
    destruct (get_aliasing_with_cases self other)
      as [Hu | (distance & Hd & _ & _ & Ha)].
    + rewrite Hu. split; [by eexists | by left].
    + rewrite Ha. split; [|right; eauto].
      rewrite make_always_Some by done. by eexists.
Qed.

(** ** Summands *)

Lemma summand_ctor_spec (variable : NodePtr) (scale : NoOverflowInt.t) :
  MemPointerSummand.ctor variable scale =
    if is_nullptr variable then None
    else if NoOverflowInt.is_zero scale then None
    else Some (MemPointerSummand.mk variable scale).
Proof.
  unfold MemPointerSummand.ctor.
  destruct (is_nullptr variable); simpl; [reflexivity|].
  destruct (NoOverflowInt.is_zero scale); reflexivity.
Qed.

Lemma summand_ctor_Some (variable : NodePtr) (scale : NoOverflowInt.t)
    (s : MemPointerSummand.t) :
  MemPointerSummand.ctor variable scale = Some s →
  s = MemPointerSummand.mk variable scale
  ∧ is_nullptr variable = false ∧ NoOverflowInt.is_zero scale = false.
Proof.
  rewrite summand_ctor_spec.
  destruct (is_nullptr variable); [discriminate|].
  destruct (NoOverflowInt.is_zero scale); [discriminate|].
  intros [= <-]. auto.
Qed.

Lemma operator_eq_spec (a b : MemPointerSummand.t) :
  MemPointerSummand.operator_eq a b = true ↔
    (MemPointerSummand._variable a = nullptr
     ∧ MemPointerSummand._variable b = nullptr)
    ∨ (∃ n m scale,
         MemPointerSummand._variable a = Some n
         ∧ MemPointerSummand._variable b = Some m
         ∧ _idx n = _idx m
         ∧ MemPointerSummand._scale a = NoOverflowInt.Int scale
         ∧ MemPointerSummand._scale b = NoOverflowInt.Int scale).
Proof.
  destruct a as [[n|] sa], b as [[m|] sb];
    unfold MemPointerSummand.operator_eq, nullptr; simpl.
  - destruct (Z.eqb_spec (_idx n) (_idx m)) as [Hidx|Hidx]; simpl.
    + destruct sa as [|x], sb as [|y]; simpl;
        try (split; [discriminate | intros [[? ?]|(?&?&?&?&?&?&?&?)]; congruence]).
      rewrite Z.eqb_eq. split.
      * intros ->. right. by exists n, m, y.
      * intros [[? ?]|(?&?&?&?&?&?&?&?)]; congruence.
    + split; [discriminate|].
      intros [[? ?]|(?&?&?&?&?&?&?&?)]; congruence.
  - split; [discriminate|].
    intros [[? ?]|(?&?&?&?&?&?&?&?)]; congruence.
  - split; [discriminate|].
    intros [[? ?]|(?&?&?&?&?&?&?&?)]; congruence.
  - split; auto.
Qed.

(** C10: a summand with a non-null variable and a [NaN] scale passes both
    assertions of the constructor (the zero-check of [NaN] is false), and
    does not compare equal to itself: [operator==] is not reflexive. *)
Theorem summand_equality_not_reflexive :
  (∀ variable : Node,
     ∃ s,
       MemPointerSummand.ctor (Some variable) NoOverflowInt.make_NaN = Some s
       ∧ MemPointerSummand._variable s = Some variable
       ∧ NoOverflowInt.is_NaN (MemPointerSummand._scale s) = true
       ∧ MemPointerSummand.operator_eq s s = false)
  ∧ ¬ (∀ s, MemPointerSummand.operator_eq s s = true).
Proof.
  assert (Hnan : ∀ variable : Node,
    MemPointerSummand.operator_eq
      (MemPointerSummand.mk (Some variable) NoOverflowInt.NaN)
      (MemPointerSummand.mk (Some variable) NoOverflowInt.NaN) = false).
  { intros variable. unfold MemPointerSummand.operator_eq. simpl.
    rewrite Z.eqb_refl. reflexivity. }
  split.
  - intros variable.
    exists (MemPointerSummand.mk (Some variable) NoOverflowInt.NaN).
    rewrite summand_ctor_spec. simpl. auto.
  - intros Hrefl.
    specialize (Hrefl (MemPointerSummand.mk (Some (Node_Opaque 0)) NoOverflowInt.NaN)).
    rewrite Hnan in Hrefl. discriminate.
Qed.

(** ** The sort of the comparator *)

Lemma to_jint_small (d : Z) : - 2 ^ 31 <= d < 2 ^ 31 → to_jint d = d.
Proof.
  intros Hd. unfold to_jint.
  rewrite Z.mod_small by lia. lia.
Qed.

Lemma to_jint_opp_neg (d : Z) : 0 < to_jint d → to_jint (- d) < 0.
Proof.
  unfold to_jint. intros Hpos.
  pose proof (Z.div_mod (d + 2 ^ 31) (2 ^ 32) ltac:(lia)) as Hdm.
  pose proof (Z.mod_pos_bound (d + 2 ^ 31) (2 ^ 32) ltac:(lia)) as Hb.
  set (q := (d + 2 ^ 31) / 2 ^ 32) in *.
  set (r := (d + 2 ^ 31) mod 2 ^ 32) in *.
  assert (Hmod : (- d + 2 ^ 31) mod 2 ^ 32 = 2 ^ 32 - r).
  { symmetry. apply (Z.mod_unique _ _ (- q)); lia. }
  rewrite Hmod. lia.
Qed.

Lemma summand_le_total (a b : MemPointerSummand.t) :
  summand_le a b ∨ summand_le b a.
Proof.
  unfold summand_le, MemPointerSummand.cmp_for_sort.
  destruct (MemPointerSummand._variable a) as [n|],
           (MemPointerSummand._variable b) as [m|]; try lia.
  destruct (Z_le_gt_dec (to_jint (_idx n - _idx m)) 0) as [Hle|Hgt]; [by left|].
  right. pose proof (to_jint_opp_neg (_idx n - _idx m) ltac:(lia)) as Hneg.
  replace (_idx m - _idx n) with (- (_idx n - _idx m)) by lia. lia.
Qed.

Lemma summand_le_identity (a b : MemPointerSummand.t) :
  idx_in_range a → idx_in_range b → summand_le a b ↔ identity_le a b.
Proof.
  unfold idx_in_range, summand_le, identity_le, MemPointerSummand.cmp_for_sort.
  destruct (MemPointerSummand._variable a) as [n|],
           (MemPointerSummand._variable b) as [m|]; intros Ha Hb; try lia.
  rewrite to_jint_small by lia. lia.
Qed.

Lemma identity_le_trans (a b c : MemPointerSummand.t) :
  identity_le a b → identity_le b c → identity_le a c.
Proof.
  unfold identity_le.
  destruct (MemPointerSummand._variable a), (MemPointerSummand._variable b),
    (MemPointerSummand._variable c); try tauto; lia.
Qed.

Lemma insert_summand_Permutation (s : MemPointerSummand.t)
    (l : list MemPointerSummand.t) :
  MemPointerDecomposedForm.insert_summand s l ≡ₚ s :: l.
Proof.
  induction l as [|x l IH]; simpl; [reflexivity|].
  destruct (MemPointerSummand.cmp_for_sort s x <=? 0); [reflexivity|].
  rewrite IH. apply Permutation_swap.
Qed.

Lemma sort_summands_Permutation (l : list MemPointerSummand.t) :
  MemPointerDecomposedForm.sort_summands l ≡ₚ l.
Proof.
  induction l as [|x l IH]; simpl; [reflexivity|].
  rewrite insert_summand_Permutation. by rewrite IH.
Qed.

Lemma insert_summand_HdRel (x s : MemPointerSummand.t)
    (l : list MemPointerSummand.t) :
  summand_le x s → HdRel summand_le x l →
  HdRel summand_le x (MemPointerDecomposedForm.insert_summand s l).
Proof.
  intros Hxs Hhd. destruct l as [|y l]; simpl; [by constructor|].
  destruct (MemPointerSummand.cmp_for_sort s y <=? 0); constructor; auto.
  by inversion Hhd.
Qed.

Lemma insert_summand_Sorted (s : MemPointerSummand.t)
    (l : list MemPointerSummand.t) :
  Sorted summand_le l →
  Sorted summand_le (MemPointerDecomposedForm.insert_summand s l).
Proof.
  induction 1 as [|x l Hsorted IH Hhd]; simpl.
  - repeat constructor.
  - destruct (Z.leb_spec (MemPointerSummand.cmp_for_sort s x) 0) as [Hle|Hgt].
    + constructor; [by constructor | by constructor].
    + constructor; [exact IH|].
      apply insert_summand_HdRel; [|exact Hhd].
      destruct (summand_le_total x s) as [Hxs|Hsx]; [exact Hxs|].
      unfold summand_le in Hsx. lia.
Qed.

Lemma sort_summands_Sorted (l : list MemPointerSummand.t) :
  Sorted summand_le (MemPointerDecomposedForm.sort_summands l).
Proof.
  induction l as [|x l IH]; simpl; [constructor|].
  by apply insert_summand_Sorted.
Qed.

Lemma Sorted_identity_le (l : list MemPointerSummand.t) :
  Forall idx_in_range l → Sorted summand_le l → StronglySorted identity_le l.
Proof.
  intros Hrange Hsorted.
  apply Sorted_StronglySorted; [exact identity_le_trans|].
  induction Hsorted as [|x l Hsorted IH Hhd]; [constructor|].
  apply Forall_cons in Hrange as [Hx Hl].
  constructor; [by apply IH|].
  destruct Hhd as [|y l' Hxy]; constructor.
  apply Forall_cons in Hl as [Hy _].
  by apply summand_le_identity.
Qed.

(** In a sequence sorted by [cmp_for_sort], only empty summands follow an
    empty summand. *)
Lemma Sorted_empty_last (l : list MemPointerSummand.t) :
  Sorted summand_le l →
  ∀ (i j : nat) a b,
    (i < j)%nat → l !! i = Some a → l !! j = Some b →
    MemPointerSummand._variable a = nullptr →
    MemPointerSummand._variable b = nullptr.
Proof.
  intros Hsorted.
  assert (Hnext : ∀ l, Sorted summand_le l → ∀ a,
            HdRel summand_le a l → MemPointerSummand._variable a = nullptr →
            Forall (λ b, MemPointerSummand._variable b = nullptr) l).
  { clear. induction 1 as [|x l Hsorted IH Hhd]; intros a Ha Hnull; [constructor|].
    inversion Ha as [|? ? Hax]; subst.
    assert (Hx : MemPointerSummand._variable x = nullptr).
    { unfold summand_le, MemPointerSummand.cmp_for_sort in Hax.
      rewrite Hnull in Hax. unfold nullptr in *.
      destruct (MemPointerSummand._variable x); [lia | reflexivity]. }
    constructor; [exact Hx | by apply (IH x)]. }
  induction Hsorted as [|x l Hsorted IH Hhd]; intros i j a b Hij Hi Hj Ha.
  - by rewrite lookup_nil in Hi.
  - destruct j as [|j]; [lia|]. simpl in Hj.
    destruct i as [|i]; simpl in Hi.
    + injection Hi as ->.
      pose proof (Hnext l Hsorted a Hhd Ha) as Hall.
      rewrite Forall_lookup in Hall. by apply (Hall j).
    + apply (IH i j a b); auto. lia.
Qed.

Lemma summands_equal_pairwise (l1 l2 : list MemPointerSummand.t) :
  MemPointerDecomposedForm.summands_equal l1 l2 = true ↔ pairwise_equal l1 l2.
Proof.
  unfold pairwise_equal. revert l2.
  induction l1 as [|a l1 IH]; intros [|b l2]; simpl.
  - split; [constructor | reflexivity].
  - split; [discriminate | inversion 1].
  - split; [discriminate | inversion 1].
  - unfold MemPointerSummand.operator_ne.
    destruct (MemPointerSummand.operator_eq a b) eqn:Hab; simpl.
    + rewrite IH. split; [by constructor | by inversion 1].
    + split; [discriminate|]. inversion 1; congruence.
Qed.

Lemma sort_summands_sorted_by_identity (l : list MemPointerSummand.t) :
  sorted_by_identity l (MemPointerDecomposedForm.sort_summands l).
Proof.
  pose proof (sort_summands_Sorted l) as Hsorted.
  pose proof (sort_summands_Permutation l) as Hperm.
  repeat split; auto.
  - by apply Sorted_empty_last.
  - intros Hrange. apply Sorted_identity_le; [|exact Hsorted].
    by rewrite Hperm.
Qed.

(** ** The comparator *)

Lemma operator_eq_same_term_and_scale (a b : MemPointerSummand.t) :
  MemPointerSummand.operator_eq a b = true ↔ same_term_and_scale a b.
Proof.
  rewrite operator_eq_spec. unfold same_term_and_scale, nullptr. split.
  - intros [[-> ->] | (n & m & scale & -> & -> & Hidx & Ha & Hb)]; [done|].
    split; [exact Hidx | by exists scale].
  - destruct (MemPointerSummand._variable a) as [n|],
      (MemPointerSummand._variable b) as [m|]; try done.
    + intros [Hidx (scale & Ha & Hb)]. right. by exists n, m, scale.
    + by left.
Qed.

Lemma pairwise_equal_sequences_equal (l1 l2 : list MemPointerSummand.t) :
  pairwise_equal l1 l2 ↔ sequences_equal l1 l2.
Proof.
  unfold pairwise_equal, sequences_equal.
  rewrite Forall2_same_length_lookup.
  split; intros [Hlen Hall]; (split; [exact Hlen|]); intros i a b Ha Hb;
    apply operator_eq_same_term_and_scale; eauto.
Qed.

Lemma same_term_and_scale_sym (a b : MemPointerSummand.t) :
  same_term_and_scale a b → same_term_and_scale b a.
Proof.
  unfold same_term_and_scale.
  destruct (MemPointerSummand._variable a), (MemPointerSummand._variable b);
    try done.
  intros [Hidx (scale & Ha & Hb)]. split; [done | by exists scale].
Qed.

(** A summand of one form that no summand of the other form matches makes
    the sorted sequences unequal. *)
Lemma unmatched_summand_unequal (l1 l2 : list MemPointerSummand.t)
    (a : MemPointerSummand.t) :
  a ∈ l1 →
  (∀ b, b ∈ l2 → ¬ same_term_and_scale a b) →
  MemPointerDecomposedForm.summands_equal
    (MemPointerDecomposedForm.sort_summands l1)
    (MemPointerDecomposedForm.sort_summands l2) = false
  ∧ MemPointerDecomposedForm.summands_equal
      (MemPointerDecomposedForm.sort_summands l2)
      (MemPointerDecomposedForm.sort_summands l1) = false.
Proof.
  intros Ha Hnone.
  rewrite <- (sort_summands_Permutation l1) in Ha.
  apply list_elem_of_lookup in Ha as [i Hi].
  split; apply not_true_is_false; intros Heq%summands_equal_pairwise.
  - destruct (Forall2_lookup_l _ _ _ _ _ Heq Hi) as (b & Hb & Hab).
    apply list_elem_of_lookup_2 in Hb.
    rewrite (sort_summands_Permutation l2) in Hb.
    apply operator_eq_same_term_and_scale in Hab.
    by apply (Hnone b Hb).
  - destruct (Forall2_lookup_r _ _ _ _ _ Heq Hi) as (b & Hb & Hab).
    apply list_elem_of_lookup_2 in Hb.
    rewrite (sort_summands_Permutation l2) in Hb.
    apply operator_eq_same_term_and_scale, same_term_and_scale_sym in Hab.
    by apply (Hnone b Hb).
Qed.

(** C2: [get_aliasing_with] compares the summands of the two forms sorted by
    term identity (empty summands last).  When the sorted sequences are not
    pairwise equal (equal counts, and at each position the same term
    identity and an equal scale) the verdict is [Unknown]; so it is when a
    summand of one form has a term or a scale that no summand of the other
    form has.  When the sequences are equal, the distance is [B.con - A.con]
    in bounded-overflow arithmetic: the verdict is [Unknown] if that is
    [NaN] or [2^30 <= abs(distance)], and [Always(distance)] otherwise. *)
Theorem comparator_procedure (A B : MemPointerDecomposedForm.t) :
  sorted_by_identity (MemPointerDecomposedForm._summands A)
    (MemPointerDecomposedForm.sort_summands (MemPointerDecomposedForm._summands A))
  ∧ sorted_by_identity (MemPointerDecomposedForm._summands B)
      (MemPointerDecomposedForm.sort_summands (MemPointerDecomposedForm._summands B))
  ∧ (¬ sequences_equal
         (MemPointerDecomposedForm.sort_summands (MemPointerDecomposedForm._summands A))
         (MemPointerDecomposedForm.sort_summands (MemPointerDecomposedForm._summands B)) →
     MemPointerDecomposedForm.get_aliasing_with A B
       = Some (MemPointerAliasing.mk MemPointerAliasing.Unknown 0))
  ∧ (∀ a,
       a ∈ MemPointerDecomposedForm._summands A →
       (∀ b, b ∈ MemPointerDecomposedForm._summands B →
             ¬ same_term_and_scale a b) →
       MemPointerDecomposedForm.get_aliasing_with A B
         = Some (MemPointerAliasing.mk MemPointerAliasing.Unknown 0)
       ∧ MemPointerDecomposedForm.get_aliasing_with B A
           = Some (MemPointerAliasing.mk MemPointerAliasing.Unknown 0))
  ∧ (sequences_equal
       (MemPointerDecomposedForm.sort_summands (MemPointerDecomposedForm._summands A))
       (MemPointerDecomposedForm.sort_summands (MemPointerDecomposedForm._summands B)) →
     match NoOverflowInt.sub (MemPointerDecomposedForm._con B)
             (MemPointerDecomposedForm._con A) with
     | NoOverflowInt.NaN =>
         MemPointerDecomposedForm.get_aliasing_with A B
           = Some (MemPointerAliasing.mk MemPointerAliasing.Unknown 0)
     | NoOverflowInt.Int distance =>
         (2 ^ 30 <= Z.abs distance →
          MemPointerDecomposedForm.get_aliasing_with A B
            = Some (MemPointerAliasing.mk MemPointerAliasing.Unknown 0))
         ∧ (Z.abs distance < 2 ^ 30 →
            MemPointerDecomposedForm.get_aliasing_with A B
              = Some (MemPointerAliasing.mk MemPointerAliasing.Always distance))
     end)
  ∧ (∀ a b,
       NoOverflowInt.sub (NoOverflowInt.Int b) (NoOverflowInt.Int a) =
         if bool_decide (min_jint <= b - a <= max_jint)
         then NoOverflowInt.Int (b - a) else NoOverflowInt.NaN)
  ∧ (∀ a, NoOverflowInt.sub a NoOverflowInt.NaN = NoOverflowInt.NaN
          ∧ NoOverflowInt.sub NoOverflowInt.NaN a = NoOverflowInt.NaN).
Proof.
  split; [apply sort_summands_sorted_by_identity|].
  split; [apply sort_summands_sorted_by_identity|].
  unfold MemPointerDecomposedForm.get_aliasing_with.
  rewrite make_unknown_Some.
  split; [|split; [|split; [|split]]].
  - intros Hne.
    rewrite <- pairwise_equal_sequences_equal, <- summands_equal_pairwise in Hne.
    by destruct (MemPointerDecomposedForm.summands_equal _ _).
  - intros a Ha Hnone.
    destruct (unmatched_summand_unequal _ _ a Ha Hnone) as [-> ->]. by split.
  - intros Heq.
    apply pairwise_equal_sequences_equal, summands_equal_pairwise in Heq.
    rewrite Heq. simpl.
    destruct (NoOverflowInt.sub _ _) as [|distance]; [reflexivity|].
    split; intros Hd.
    + destruct (Z.ltb_spec (Z.abs distance) (2 ^ 30)); [lia | reflexivity].
    + destruct (Z.ltb_spec (Z.abs distance) (2 ^ 30)); [|lia].
      apply make_always_Some. lia.
  - intros a b. simpl. case_bool_decide as Hfit.
    + by apply make_fits.
    + unfold NoOverflowInt.make.
      destruct (Z.leb_spec min_jint (b - a)), (Z.leb_spec (b - a) max_jint);
        simpl; auto; lia.
  - intros a. by destruct a.
Qed.

(** ** The facade *)

(** C6: [is_adjacent_to_and_before] is true exactly when the comparator's
    verdict on [self] and [other] -- the distance of [other] from [self] --
    is [Always(distance)] with [distance] the byte width of [self]'s
    access: the constant of [other] is then that of [self] plus the width,
    [self] ends where [other] begins. *)
Theorem adjacency_predicate (self other : MemPointer.t) :
  is_Some (MemPointer.is_adjacent_to_and_before self other)
  ∧ (MemPointer.is_adjacent_to_and_before self other = Some true ↔
     ∃ distance,
       MemPointerDecomposedForm.get_aliasing_with
         (MemPointer._decomposed_form self) (MemPointer._decomposed_form other)
         = Some (MemPointerAliasing.mk MemPointerAliasing.Always distance)
       ∧ distance = memory_size (MemPointer._mem self))
  ∧ (MemPointer.is_adjacent_to_and_before self other = Some true →
     summands_identical (MemPointer._decomposed_form self)
       (MemPointer._decomposed_form other) = true
     ∧ ∃ con_self con_other,
         MemPointerDecomposedForm._con (MemPointer._decomposed_form self)
           = NoOverflowInt.Int con_self
         ∧ MemPointerDecomposedForm._con (MemPointer._decomposed_form other)
             = NoOverflowInt.Int con_other
         ∧ con_self + memory_size (MemPointer._mem self) = con_other).
Proof.
  unfold MemPointer.is_adjacent_to_and_before.
  destruct (get_aliasing_with_cases (MemPointer._decomposed_form self)
              (MemPointer._decomposed_form other))
    as [Hu | (distance & Hd & Hsub & Hsame & Ha)].
  - rewrite Hu, make_unknown_Some. simpl.
    split; [by eexists|]. split; [|discriminate].
    split; [discriminate|]. intros (distance & [=] & _).
  - rewrite Ha, make_always_Some by done. simpl.
    unfold MemPointerAliasing.is_always_at_distance. simpl.
    split; [by eexists|].
    destruct (Z.eqb_spec distance (memory_size (MemPointer._mem self)))
      as [Heq|Hne].
    + split; [split; [eauto|reflexivity]|].
      intros _. split; [exact Hsame|].
      destruct (MemPointerDecomposedForm._con (MemPointer._decomposed_form other))
        as [|c2]; [discriminate|].
      destruct (MemPointerDecomposedForm._con (MemPointer._decomposed_form self))
        as [|c1]; [discriminate|].
      simpl in Hsub. apply make_Int in Hsub as [Hdist _].
      exists c1, c2. repeat split. lia.
    + split; [|discriminate].
      split; [discriminate|]. intros (d & [= <-] & Hd'). congruence.
Qed.

(** ** Construction of decomposed forms *)

Lemma ctor_trivial_Some (pointer : Node) :
  MemPointerDecomposedForm.ctor_trivial (Some pointer)
    = Some (trivial_form pointer).
Proof. reflexivity. Qed.

(** The empty form is the form of no pointer; its constant is [NaN]. *)
Lemma ctor_empty_no_pointer :
  MemPointerDecomposedForm._pointer MemPointerDecomposedForm.ctor_empty = nullptr
  ∧ NoOverflowInt.is_NaN
      (MemPointerDecomposedForm._con MemPointerDecomposedForm.ctor_empty) = true
  ∧ Forall (λ s, MemPointerSummand._variable s = nullptr)
      (MemPointerDecomposedForm._summands MemPointerDecomposedForm.ctor_empty).
Proof. split; [reflexivity|]. split; [reflexivity|]. repeat constructor. Qed.

(** The slots of the trivial form: the pointer with scale 1, then empty
    summands; reading past the array fails the assertion. *)
Lemma summands_at_trivial (pointer : Node) (i : nat) :
  MemPointerDecomposedForm.summands_at (trivial_form pointer) i =
    match i with
    | O => Some (MemPointerSummand.mk (Some pointer) (NoOverflowInt.Int 1))
    | S _ =>
        if (i <? MemPointerDecomposedForm.SUMMANDS_SIZE)%nat
        then Some MemPointerSummand.empty else None
    end.
Proof.
  unfold MemPointerDecomposedForm.summands_at.
  destruct i as [|i]; [reflexivity|].
  destruct (Nat.ltb_spec (S i) MemPointerDecomposedForm.SUMMANDS_SIZE) as [Hi|Hi];
    [|reflexivity].
  change (replicate 9 MemPointerSummand.empty !! i = Some MemPointerSummand.empty).
  apply lookup_replicate_2. unfold MemPointerDecomposedForm.SUMMANDS_SIZE in Hi.
  lia.
Qed.

Lemma copy_summands_spec (l : list MemPointerSummand.t) :
  ∀ (i : nat) (array : list MemPointerSummand.t),
    Forall stored_ok l → (i + length l ≤ length array)%nat →
    MemPointerDecomposedForm.copy_summands i l array
      = Some (take i array ++ l ++ drop (i + length l) array).
Proof.
  induction l as [|s l IH]; intros i array Hok Hlen; simpl in *.
  - by rewrite Nat.add_0_r, take_drop.
  - apply Forall_cons in Hok as [[Hvar Hscale] Hok].
    rewrite Hvar, Hscale. simpl.
    rewrite IH; [|exact Hok|rewrite length_insert; lia].
    rewrite (take_S_r _ _ s), take_insert_ge, drop_insert_lt; [|lia|lia|].
    + rewrite <- app_assoc. simpl. by rewrite Nat.add_succ_r.
    + apply list_lookup_insert_eq. lia.
Qed.

Lemma ctor_summands_spec (pointer : NodePtr) (l : list MemPointerSummand.t)
    (con : NoOverflowInt.t) :
  NoOverflowInt.is_NaN con = false →
  (length l ≤ MemPointerDecomposedForm.SUMMANDS_SIZE)%nat →
  Forall stored_ok l →
  MemPointerDecomposedForm.ctor_summands pointer l con =
    Some (MemPointerDecomposedForm.mk pointer
            (l ++ replicate (MemPointerDecomposedForm.SUMMANDS_SIZE - length l)
                    MemPointerSummand.empty)
            con).
Proof.
  intros Hcon Hlen Hok. unfold MemPointerDecomposedForm.ctor_summands.
  rewrite Hcon. simpl.
  rewrite (assert_ok_true (length l <=? _)%nat) by by apply Nat.leb_le.
  simpl. rewrite copy_summands_spec; [|exact Hok|].
  - simpl. unfold MemPointerDecomposedForm.empty_summands.
    by rewrite drop_replicate.
  - unfold MemPointerDecomposedForm.empty_summands.
    rewrite length_replicate. simpl. lia.
Qed.

Lemma make_over_capacity (pointer : Node) (summands : list MemPointerSummand.t)
    (con : NoOverflowInt.t) :
  (MemPointerDecomposedForm.SUMMANDS_SIZE < length summands)%nat →
  MemPointerDecomposedForm.make (Some pointer) summands con
    = Some (trivial_form pointer).
Proof.
  intros Hlen. unfold MemPointerDecomposedForm.make.
  destruct (Nat.leb_spec (length summands) MemPointerDecomposedForm.SUMMANDS_SIZE);
    [lia|].
  apply ctor_trivial_Some.
Qed.

Lemma make_con_valid (pointer : NodePtr) (summands : list MemPointerSummand.t)
    (con : NoOverflowInt.t) (form : MemPointerDecomposedForm.t) :
  MemPointerDecomposedForm.make pointer summands con = Some form →
  NoOverflowInt.is_NaN (MemPointerDecomposedForm._con form) = false.
Proof.
  unfold MemPointerDecomposedForm.make.
  destruct (length summands <=? _)%nat.
  - unfold MemPointerDecomposedForm.ctor_summands.
    destruct (NoOverflowInt.is_NaN con) eqn:Hcon; simpl; [discriminate|].
    destruct (assert_ok _); simpl; [|discriminate].
    destruct (MemPointerDecomposedForm.copy_summands _ _ _); simpl;
      [|discriminate].
    by intros [= <-].
  - unfold MemPointerDecomposedForm.ctor_trivial.
    destruct (assert_ok _); simpl; [|discriminate].
    destruct (MemPointerSummand.ctor _ _); simpl; [|discriminate].
    by intros [= <-].
Qed.

Lemma sort_summands_trivial (pointer : Node) :
  MemPointerDecomposedForm.sort_summands
    (MemPointerDecomposedForm._summands (trivial_form pointer))
  = MemPointerDecomposedForm._summands (trivial_form pointer).
Proof. reflexivity. Qed.

Lemma get_aliasing_with_trivial (pointer1 pointer2 : Node) :
  MemPointerDecomposedForm.get_aliasing_with
    (trivial_form pointer1) (trivial_form pointer2) =
    if bool_decide (_idx pointer1 = _idx pointer2)
    then Some (MemPointerAliasing.mk MemPointerAliasing.Always 0)
    else Some (MemPointerAliasing.mk MemPointerAliasing.Unknown 0).
Proof.
  unfold MemPointerDecomposedForm.get_aliasing_with.
  rewrite !sort_summands_trivial.
  unfold trivial_form. simpl.
  unfold MemPointerSummand.operator_ne, MemPointerSummand.operator_eq. simpl.
  case_bool_decide as Hidx.
  - apply Z.eqb_eq in Hidx. rewrite Hidx. reflexivity.
  - apply Z.eqb_neq in Hidx. rewrite Hidx. reflexivity.
Qed.

(** C3: when the decomposition of a pointer has more than [SUMMANDS_SIZE]
    = 10 summands, [make] returns the trivial form
    [{term: pointer, scale: 1, constant: 0}]; the verdict on two such forms
    is [Unknown] unless the two pointers are the same node, in which case
    it is [Always(0)]. *)
Theorem capacity_fallback (pointer1 pointer2 : Node)
    (summands1 summands2 : list MemPointerSummand.t)
    (con1 con2 : NoOverflowInt.t) :
  (MemPointerDecomposedForm.SUMMANDS_SIZE < length summands1)%nat →
  (MemPointerDecomposedForm.SUMMANDS_SIZE < length summands2)%nat →
  MemPointerDecomposedForm.make (Some pointer1) summands1 con1
    = Some (trivial_form pointer1)
  ∧ MemPointerDecomposedForm.make (Some pointer2) summands2 con2
      = Some (trivial_form pointer2)
  ∧ MemPointerDecomposedForm.get_aliasing_with
      (trivial_form pointer1) (trivial_form pointer2) =
      (if bool_decide (_idx pointer1 = _idx pointer2)
       then Some (MemPointerAliasing.mk MemPointerAliasing.Always 0)
       else Some (MemPointerAliasing.mk MemPointerAliasing.Unknown 0)).
Proof.
  intros Hlen1 Hlen2.
  split; [by apply make_over_capacity|].
  split; [by apply make_over_capacity|].
  apply get_aliasing_with_trivial.
Qed.

(** The fallback on two lists of eleven summands, for two different
    pointers. *)
Lemma capacity_fallback_witness :
  let summands :=
    replicate 11 (MemPointerSummand.mk (Some (Node_Opaque 3)) (NoOverflowInt.Int 1)) in
  MemPointerDecomposedForm.make (Some (Node_Opaque 1)) summands (NoOverflowInt.Int 8)
    = Some (trivial_form (Node_Opaque 1))
  ∧ MemPointerDecomposedForm.make (Some (Node_Opaque 2)) summands (NoOverflowInt.Int 12)
      = Some (trivial_form (Node_Opaque 2))
  ∧ MemPointerDecomposedForm.get_aliasing_with
      (trivial_form (Node_Opaque 1)) (trivial_form (Node_Opaque 2))
      = Some (MemPointerAliasing.mk MemPointerAliasing.Unknown 0).
Proof.
  apply (capacity_fallback (Node_Opaque 1) (Node_Opaque 2)); vm_compute; lia.
Defined.

(** ** The parser: one decomposition step *)

Section ParserProperties.

Variable policy : Opcode → NoOverflowInt.t → bool.

Lemma node_size_pos (n : Node) : (1 ≤ node_size n)%nat.
Proof. destruct n; simpl; lia. Qed.

Lemma summand_size_pos (s : MemPointerSummand.t) :
  (1 ≤ MemPointerDecomposedFormParser.summand_size s)%nat.
Proof.
  unfold MemPointerDecomposedFormParser.summand_size.
  destruct (MemPointerSummand._variable s); simpl; [apply node_size_pos | lia].
Qed.

Lemma worklist_size_cons (con : NoOverflowInt.t) (s : MemPointerSummand.t)
    (worklist summands : list MemPointerSummand.t) :
  MemPointerDecomposedFormParser.worklist_size
    (MemPointerDecomposedFormParser.mk con (s :: worklist) summands)
  = (MemPointerDecomposedFormParser.summand_size s
     + MemPointerDecomposedFormParser.worklist_size
         (MemPointerDecomposedFormParser.mk con worklist summands))%nat.
Proof. reflexivity. Qed.

(** A push leaves the state as it is (a zero-scale contribution), or puts a
    valid summand of the variable on the worklist. *)
Lemma push_summand_Continue (variable : Node) (scale : NoOverflowInt.t)
    (st st' : MemPointerDecomposedFormParser.state) :
  MemPointerDecomposedFormParser.push_summand variable scale st
    = MemPointerDecomposedFormParser.Continue st' →
  st' = st
  ∨ (valid_summand (MemPointerSummand.mk (Some variable) scale)
     ∧ st' = MemPointerDecomposedFormParser.mk
               (MemPointerDecomposedFormParser._con st)
               (MemPointerSummand.mk (Some variable) scale
                  :: MemPointerDecomposedFormParser._worklist st)
               (MemPointerDecomposedFormParser._summands st)).
Proof.
  unfold MemPointerDecomposedFormParser.push_summand.
  destruct (NoOverflowInt.is_NaN scale) eqn:Hnan; [discriminate|].
  destruct (NoOverflowInt.is_zero scale) eqn:Hzero.
  - intros [= <-]. by left.
  - rewrite summand_ctor_spec, Hzero. simpl. intros [= <-]. right.
    split; [|reflexivity]. by repeat split.
Qed.

Lemma push_summand_not_Failed (variable : Node) (scale : NoOverflowInt.t)
    (st : MemPointerDecomposedFormParser.state) :
  MemPointerDecomposedFormParser.push_summand variable scale st
    ≠ MemPointerDecomposedFormParser.Failed.
Proof.
  unfold MemPointerDecomposedFormParser.push_summand.
  destruct (NoOverflowInt.is_NaN scale); [discriminate|].
  destruct (NoOverflowInt.is_zero scale) eqn:Hzero; [discriminate|].
  rewrite summand_ctor_spec, Hzero. simpl. discriminate.
Qed.

Lemma push_summand_size (variable : Node) (scale : NoOverflowInt.t)
    (st st' : MemPointerDecomposedFormParser.state) :
  MemPointerDecomposedFormParser.push_summand variable scale st
    = MemPointerDecomposedFormParser.Continue st' →
  (MemPointerDecomposedFormParser.worklist_size st'
     ≤ node_size variable + MemPointerDecomposedFormParser.worklist_size st)%nat.
Proof.
  intros [->|[_ ->]]%push_summand_Continue; [lia|].
  unfold MemPointerDecomposedFormParser.worklist_size. simpl.
  unfold MemPointerDecomposedFormParser.summand_size at 1. simpl. lia.
Qed.

Lemma push_summand_ok (variable : Node) (scale : NoOverflowInt.t)
    (st st' : MemPointerDecomposedFormParser.state) :
  MemPointerDecomposedFormParser.push_summand variable scale st
    = MemPointerDecomposedFormParser.Continue st' →
  MemPointerDecomposedFormParser._con st' = MemPointerDecomposedFormParser._con st
  ∧ (state_ok st → state_ok st').
Proof.
  intros [->|[Hvalid ->]]%push_summand_Continue; [done|].
  split; [reflexivity|]. intros (Hcon & Hwork & Hsum & Hlen).
  repeat split; simpl; auto.
Qed.

(** A terminal summand changes the output only; the output keeps its
    invariant. *)
Lemma add_terminal_Continue (s : MemPointerSummand.t)
    (st st' : MemPointerDecomposedFormParser.state) :
  MemPointerDecomposedFormParser.add_terminal s st
    = MemPointerDecomposedFormParser.Continue st' →
  MemPointerDecomposedFormParser._con st' = MemPointerDecomposedFormParser._con st
  ∧ MemPointerDecomposedFormParser._worklist st'
      = MemPointerDecomposedFormParser._worklist st
  ∧ (valid_summand s → state_ok st → state_ok st').
Proof.
  unfold MemPointerDecomposedFormParser.add_terminal.
  destruct (list_find _ _) as [[i x]|] eqn:Hfind.
  - apply list_find_Some in Hfind as (Hi & _ & _).
    destruct (NoOverflowInt.is_NaN _) eqn:Hnan; [discriminate|].
    destruct (NoOverflowInt.is_zero _) eqn:Hzero.
    + intros [= <-]. simpl. split; [reflexivity|]. split; [reflexivity|].
      intros _ (Hcon & Hwork & Hsum & Hlen).
      split; [exact Hcon|]. split; [exact Hwork|]. split; simpl.
      * by apply Forall_delete.
      * rewrite length_delete by eauto. lia.
    + rewrite summand_ctor_spec, Hzero.
      destruct (is_nullptr (MemPointerSummand._variable s)) eqn:Hnull;
        [discriminate|].
      intros [= <-]. simpl. split; [reflexivity|]. split; [reflexivity|].
      intros _ (Hcon & Hwork & Hsum & Hlen).
      split; [exact Hcon|]. split; [exact Hwork|]. split; simpl.
      * apply Forall_insert; [exact Hsum|]. by repeat split.
      * by rewrite length_insert.
  - destruct (Nat.leb_spec MemPointerDecomposedForm.SUMMANDS_SIZE
                (length (MemPointerDecomposedFormParser._summands st)));
      [discriminate|].
    intros [= <-]. simpl. split; [reflexivity|]. split; [reflexivity|].
    intros Hs (Hcon & Hwork & Hsum & Hlen).
    split; [exact Hcon|]. split; [exact Hwork|]. split; simpl.
    + apply Forall_app. split; [exact Hsum | by constructor].
    + rewrite length_app. simpl. lia.
Qed.

Lemma add_terminal_not_Failed (s : MemPointerSummand.t)
    (st : MemPointerDecomposedFormParser.state) :
  valid_summand s →
  MemPointerDecomposedFormParser.add_terminal s st
    ≠ MemPointerDecomposedFormParser.Failed.
Proof.
  intros [[Hvar _] _].
  unfold MemPointerDecomposedFormParser.add_terminal.
  destruct (list_find _ _) as [[i x]|].
  - destruct (NoOverflowInt.is_NaN _); [discriminate|].
    destruct (NoOverflowInt.is_zero _) eqn:Hzero; [discriminate|].
    rewrite summand_ctor_spec, Hzero, Hvar. discriminate.
  - destruct (_ <=? _)%nat; discriminate.
Qed.

Lemma add_terminal_size (s : MemPointerSummand.t)
    (st st' : MemPointerDecomposedFormParser.state) :
  MemPointerDecomposedFormParser.add_terminal s st
    = MemPointerDecomposedFormParser.Continue st' →
  MemPointerDecomposedFormParser.worklist_size st'
    = MemPointerDecomposedFormParser.worklist_size st.
Proof.
  intros (_ & Hwork & _)%add_terminal_Continue.
  unfold MemPointerDecomposedFormParser.worklist_size. by rewrite Hwork.
Qed.

Lemma and_then_Continue (r : MemPointerDecomposedFormParser.step_result)
    (k : MemPointerDecomposedFormParser.state →
         MemPointerDecomposedFormParser.step_result)
    (st' : MemPointerDecomposedFormParser.state) :
  MemPointerDecomposedFormParser.and_then r k
    = MemPointerDecomposedFormParser.Continue st' →
  ∃ st1, r = MemPointerDecomposedFormParser.Continue st1
         ∧ k st1 = MemPointerDecomposedFormParser.Continue st'.
Proof. destruct r as [st1| |]; simpl; [eauto | discriminate..]. Qed.

Ltac case_policy :=
  match goal with
  | |- context [policy ?op ?scale] => destruct (policy op scale)
  end.

(** Each step replaces the popped summand by sub-summands of strictly
    smaller structural size. *)
Lemma parse_sub_expression_size (st st' : MemPointerDecomposedFormParser.state)
    (s : MemPointerSummand.t) :
  MemPointerDecomposedFormParser.parse_sub_expression policy st s
    = MemPointerDecomposedFormParser.Continue st' →
  (MemPointerDecomposedFormParser.worklist_size st'
     < MemPointerDecomposedFormParser.summand_size s
       + MemPointerDecomposedFormParser.worklist_size st)%nat.
Proof.
  unfold MemPointerDecomposedFormParser.parse_sub_expression,
    MemPointerDecomposedFormParser.summand_size.
  destruct (MemPointerSummand._variable s) as [n|]; [|discriminate].
  destruct n; simpl; try case_policy;
    try (intros Hadd%add_terminal_size; lia);
    try (intros (st1 & H1%push_summand_size & H2%push_summand_size)%and_then_Continue;
         lia);
    try (intros Hpush%push_summand_size; lia).
  destruct (NoOverflowInt.is_NaN _); [discriminate|].
  intros [= <-]. unfold MemPointerDecomposedFormParser.worklist_size. simpl. lia.
Qed.

Lemma parse_sub_expression_con (st st' : MemPointerDecomposedFormParser.state)
    (s : MemPointerSummand.t) :
  MemPointerDecomposedFormParser.parse_sub_expression policy st s
    = MemPointerDecomposedFormParser.Continue st' →
  NoOverflowInt.is_NaN (MemPointerDecomposedFormParser._con st) = false →
  NoOverflowInt.is_NaN (MemPointerDecomposedFormParser._con st') = false.
Proof.
  unfold MemPointerDecomposedFormParser.parse_sub_expression.
  destruct (MemPointerSummand._variable s) as [n|]; [|discriminate].
  destruct n; simpl; try case_policy;
    try (intros (Hcon & _)%add_terminal_Continue; congruence);
    try (intros (st1 & [H1 _]%push_summand_ok & [H2 _]%push_summand_ok)%and_then_Continue;
         congruence);
    try (intros [Hcon _]%push_summand_ok; congruence).
  destruct (NoOverflowInt.is_NaN _) eqn:Hnan; [discriminate|].
  by intros [= <-].
Qed.

Lemma parse_sub_expression_ok (st st' : MemPointerDecomposedFormParser.state)
    (s : MemPointerSummand.t) :
  MemPointerDecomposedFormParser.parse_sub_expression policy st s
    = MemPointerDecomposedFormParser.Continue st' →
  valid_summand s → state_ok st → state_ok st'.
Proof.
  unfold MemPointerDecomposedFormParser.parse_sub_expression.
  destruct (MemPointerSummand._variable s) as [n|]; [|discriminate].
  destruct n; simpl; try case_policy;
    try (intros (_ & _ & Hok)%add_terminal_Continue; exact Hok);
    try (intros (st1 & [_ Hok1]%push_summand_ok & [_ Hok2]%push_summand_ok)%and_then_Continue;
         auto);
    try (intros [_ Hok]%push_summand_ok; auto).
  destruct (NoOverflowInt.is_NaN _) eqn:Hnan; [discriminate|].
  intros [= <-] _ (Hcon & Hwork & Hsum & Hlen). by repeat split.
Qed.

Lemma parse_sub_expression_not_Failed (st : MemPointerDecomposedFormParser.state)
    (s : MemPointerSummand.t) :
  valid_summand s →
  MemPointerDecomposedFormParser.parse_sub_expression policy st s
    ≠ MemPointerDecomposedFormParser.Failed.
Proof.
  intros Hvalid.
  pose proof (add_terminal_not_Failed s st Hvalid) as Hterminal.
  destruct Hvalid as [[Hvar _] _].
  unfold MemPointerDecomposedFormParser.parse_sub_expression.
  destruct (MemPointerSummand._variable s) as [n|]; [|discriminate].
  destruct n; simpl; try case_policy; auto using push_summand_not_Failed.
  - destruct (NoOverflowInt.is_NaN _); discriminate.
  - destruct (MemPointerDecomposedFormParser.push_summand n1 _ st) eqn:Hpush;
      simpl; [apply push_summand_not_Failed | discriminate |].
    by apply push_summand_not_Failed in Hpush.
  - destruct (MemPointerDecomposedFormParser.push_summand n1 _ st) eqn:Hpush;
      simpl; [apply push_summand_not_Failed | discriminate |].
    by apply push_summand_not_Failed in Hpush.
Qed.

(** ** The parser: the worklist loop *)

Lemma parse_loop_terminates (fuel : nat) :
  ∀ st : MemPointerDecomposedFormParser.state,
    (MemPointerDecomposedFormParser.worklist_size st ≤ fuel)%nat →
    MemPointerDecomposedFormParser.parse_loop policy fuel st
      ≠ MemPointerDecomposedFormParser.NoFuel.
Proof.
  induction fuel as [|fuel IH]; intros [con [|s worklist] summands] Hsize;
    simpl; try discriminate.
  - rewrite worklist_size_cons in Hsize.
    pose proof (summand_size_pos s). lia.
  - destruct (MemPointerDecomposedFormParser.parse_sub_expression _ _ _)
      as [st'| |] eqn:Hstep; try discriminate.
    apply IH. apply parse_sub_expression_size in Hstep.
    rewrite worklist_size_cons in Hsize. lia.
Qed.

Lemma steps_length (fuel : nat) :
  ∀ st : MemPointerDecomposedFormParser.state,
    (length (MemPointerDecomposedFormParser.steps policy fuel st)
       ≤ MemPointerDecomposedFormParser.worklist_size st)%nat.
Proof.
  induction fuel as [|fuel IH]; intros [con [|s worklist] summands];
    simpl; try lia.
  rewrite worklist_size_cons. pose proof (summand_size_pos s) as Hpos.
  destruct (MemPointerDecomposedFormParser.parse_sub_expression _ _ _)
    as [st'| |] eqn:Hstep; simpl; try lia.
  apply parse_sub_expression_size in Hstep. specialize (IH st'). lia.
Qed.

Lemma parse_loop_ok (fuel : nat) :
  ∀ st : MemPointerDecomposedFormParser.state,
    state_ok st →
    MemPointerDecomposedFormParser.parse_loop policy fuel st
      ≠ MemPointerDecomposedFormParser.AssertFailed
    ∧ ∀ st', MemPointerDecomposedFormParser.parse_loop policy fuel st
               = MemPointerDecomposedFormParser.Parsed st' → state_ok st'.
Proof.
  induction fuel as [|fuel IH]; intros [con [|s worklist] summands] Hok;
    simpl; try (split; [discriminate | by intros st' [= <-]]);
    try (split; [discriminate | intros st'; discriminate]).
  destruct Hok as (Hcon & [Hs Hwork]%Forall_cons & Hsum & Hlen).
  simpl in *.
  destruct (MemPointerDecomposedFormParser.parse_sub_expression _ _ _)
    as [st1| |] eqn:Hstep.
  - apply IH. eapply parse_sub_expression_ok; eauto. by repeat split.
  - split; [discriminate | intros st'; discriminate].
  - by apply parse_sub_expression_not_Failed in Hstep.
Qed.

(** Once the running constant is [NaN] the loop falls back. *)
Lemma parse_loop_poisoned (fuel : nat) :
  ∀ st : MemPointerDecomposedFormParser.state,
    NoOverflowInt.is_NaN (MemPointerDecomposedFormParser._con st) = false →
    Exists (λ step, NoOverflowInt.is_NaN
                      (MemPointerDecomposedFormParser.accumulated_con step) = true)
      (MemPointerDecomposedFormParser.steps policy fuel st) →
    MemPointerDecomposedFormParser.parse_loop policy fuel st
      = MemPointerDecomposedFormParser.ToTrivial.
Proof.
  induction fuel as [|fuel IH]; intros [con [|s worklist] summands] Hcon Hex;
    simpl in *; try (by apply Exists_nil in Hex).
  apply Exists_cons in Hex as [Hhead|Htail].
  - unfold MemPointerDecomposedFormParser.accumulated_con in Hhead.
    unfold MemPointerDecomposedFormParser.parse_sub_expression.
    simpl in Hhead.
    destruct (MemPointerSummand._variable s) as [[]|]; simpl; try congruence.
    by rewrite Hhead.
  - destruct (MemPointerDecomposedFormParser.parse_sub_expression _ _ _)
      as [st1| |] eqn:Hstep; try (by apply Exists_nil in Htail).
    apply IH; [|exact Htail].
    by apply (parse_sub_expression_con _ _ _ Hstep).
Qed.

(** ** The parser: the decomposed form *)

Lemma initial_state_Some (pointer : Node) :
  MemPointerDecomposedFormParser.initial_state pointer =
    Some (MemPointerDecomposedFormParser.mk (NoOverflowInt.Int 0)
            [MemPointerSummand.mk (Some pointer) (NoOverflowInt.Int 1)] []).
Proof. reflexivity. Qed.

Lemma initial_state_ok (pointer : Node) :
  state_ok (MemPointerDecomposedFormParser.mk (NoOverflowInt.Int 0)
              [MemPointerSummand.mk (Some pointer) (NoOverflowInt.Int 1)] []).
Proof.
  split; [reflexivity|]. split; [|split; [constructor | simpl; lia]].
  constructor; [|constructor]. by repeat split.
Qed.

(** The parse ends in the trivial form, or in the form of the summands and
    the constant the loop leaves. *)
Lemma parse_decomposed_form_cases (mem : MemNode) :
  let pointer := in_Address mem in
  let st0 :=
    MemPointerDecomposedFormParser.mk (NoOverflowInt.Int 0)
      [MemPointerSummand.mk (Some pointer) (NoOverflowInt.Int 1)] [] in
  (MemPointerDecomposedFormParser.parse_loop policy (node_size pointer) st0
     = MemPointerDecomposedFormParser.ToTrivial
   ∧ MemPointerDecomposedFormParser.parse_decomposed_form policy mem
       = Some (trivial_form pointer))
  ∨ (∃ st',
       MemPointerDecomposedFormParser.parse_loop policy (node_size pointer) st0
         = MemPointerDecomposedFormParser.Parsed st'
       ∧ state_ok st'
       ∧ MemPointerDecomposedFormParser.parse_decomposed_form policy mem
           = Some (MemPointerDecomposedForm.mk (Some pointer)
                     (MemPointerDecomposedFormParser._summands st'
                        ++ replicate
                             (MemPointerDecomposedForm.SUMMANDS_SIZE
                                - length (MemPointerDecomposedFormParser._summands st'))
                             MemPointerSummand.empty)
                     (MemPointerDecomposedFormParser._con st'))).
Proof.
  intros pointer st0.
  unfold MemPointerDecomposedFormParser.parse_decomposed_form.
  rewrite initial_state_Some. simpl. fold pointer. fold st0.
  pose proof (parse_loop_ok (node_size pointer) st0 (initial_state_ok pointer))
    as [Hassert Hparsed].
  pose proof (parse_loop_terminates (node_size pointer) st0) as Hfuel.
  destruct (MemPointerDecomposedFormParser.parse_loop _ _ _) as [st'| | |].
  - right. exists st'. specialize (Hparsed st' eq_refl).
    split; [reflexivity|]. split; [exact Hparsed|].
    destruct Hparsed as (Hcon & _ & Hsum & Hlen).
    unfold MemPointerDecomposedForm.make.
    destruct (Nat.leb_spec
                (length (MemPointerDecomposedFormParser._summands st'))
                MemPointerDecomposedForm.SUMMANDS_SIZE); [|lia].
    apply ctor_summands_spec; auto.
    eapply Forall_impl; [exact Hsum|]. by intros s [Hs _].
  - left. split; reflexivity.
  - done.
  - exfalso. apply Hfuel; [|reflexivity].
    unfold MemPointerDecomposedFormParser.worklist_size, st0,
      MemPointerDecomposedFormParser.summand_size. simpl. lia.
Qed.

Lemma parse_decomposed_form_total (mem : MemNode) :
  ∃ form,
    MemPointerDecomposedFormParser.parse_decomposed_form policy mem = Some form
    ∧ NoOverflowInt.is_NaN (MemPointerDecomposedForm._con form) = false
    ∧ Forall (λ s, MemPointerSummand._variable s ≠ nullptr →
                   NoOverflowInt.is_zero (MemPointerSummand._scale s) = false)
        (MemPointerDecomposedForm._summands form).
Proof.
  destruct (parse_decomposed_form_cases mem)
    as [[_ Hform] | (st' & _ & (Hcon & _ & Hsum & _) & Hform)];
    eexists; (split; [exact Hform|]); simpl.
  - split; [reflexivity|].
    repeat (constructor;
            [intros Hnull; first [reflexivity | by destruct Hnull]|]).
    constructor.
  - split; [exact Hcon|]. apply Forall_app. split.
    + eapply Forall_impl; [exact Hsum|]. by intros s [_ Hzero] _.
    + apply Forall_replicate. by intros Hnull.
Qed.

(** C7: the worklist-driven decomposition terminates on every pointer
    expression: each step replaces the popped summand by sub-summands of
    strictly smaller structural size, so the loop never runs out of a fuel
    of the structural size of the worklist, and pops at most as many
    summands as the structural size of the pointer expression. *)
Theorem parser_terminates :
  (∀ st st' summand,
     MemPointerDecomposedFormParser.parse_sub_expression policy st summand
       = MemPointerDecomposedFormParser.Continue st' →
     (MemPointerDecomposedFormParser.worklist_size st'
        < MemPointerDecomposedFormParser.summand_size summand
          + MemPointerDecomposedFormParser.worklist_size st)%nat)
  ∧ (∀ fuel st,
       (MemPointerDecomposedFormParser.worklist_size st ≤ fuel)%nat →
       MemPointerDecomposedFormParser.parse_loop policy fuel st
         ≠ MemPointerDecomposedFormParser.NoFuel)
  ∧ (∀ pointer : Node,
       ∃ st0,
         MemPointerDecomposedFormParser.initial_state pointer = Some st0
         ∧ MemPointerDecomposedFormParser.worklist_size st0 = node_size pointer
         ∧ (MemPointerDecomposedFormParser.parse_loop policy (node_size pointer) st0
              = MemPointerDecomposedFormParser.ToTrivial
            ∨ ∃ st', MemPointerDecomposedFormParser.parse_loop policy
                       (node_size pointer) st0
                     = MemPointerDecomposedFormParser.Parsed st')
         ∧ (length (MemPointerDecomposedFormParser.visited policy
                      (node_size pointer) st0)
              ≤ node_size pointer)%nat).
Proof.
  split; [intros st st' summand; apply parse_sub_expression_size|].
  split; [intros fuel st; apply parse_loop_terminates|].
  intros pointer. eexists. split; [apply initial_state_Some|].
  assert (Hsize : MemPointerDecomposedFormParser.worklist_size
            (MemPointerDecomposedFormParser.mk (NoOverflowInt.Int 0)
               [MemPointerSummand.mk (Some pointer) (NoOverflowInt.Int 1)] [])
          = node_size pointer).
  { unfold MemPointerDecomposedFormParser.worklist_size,
      MemPointerDecomposedFormParser.summand_size. simpl. lia. }
  split; [exact Hsize|]. split.
  - destruct (parse_decomposed_form_cases (mkMemNode true pointer 0))
      as [[Hloop _] | (st' & Hloop & _)]; simpl in Hloop; eauto.
  - unfold MemPointerDecomposedFormParser.visited.
    rewrite length_fmap, <- Hsize. apply steps_length.
Qed.

(** C4: a decomposed form that [make], the trivial constructor or the parser
    constructs for a pointer never has a [NaN] constant (the private
    constructor asserts it, and the parser returns a form for every memory
    access); and whenever the constant the parser accumulates becomes [NaN],
    the parser returns the trivial form
    [{term: pointer, scale: 1, constant: 0}]. *)
Theorem NaN_constant_collapse :
  (∀ pointer summands con form,
     MemPointerDecomposedForm.make pointer summands con = Some form →
     NoOverflowInt.is_NaN (MemPointerDecomposedForm._con form) = false)
  ∧ (∀ pointer form,
       MemPointerDecomposedForm.ctor_trivial pointer = Some form →
       NoOverflowInt.is_NaN (MemPointerDecomposedForm._con form) = false)
  ∧ (∀ mem,
       ∃ form,
         MemPointerDecomposedFormParser.parse_decomposed_form policy mem
           = Some form
         ∧ NoOverflowInt.is_NaN (MemPointerDecomposedForm._con form) = false)
  ∧ (∀ mem st0,
       MemPointerDecomposedFormParser.initial_state (in_Address mem) = Some st0 →
       Exists (λ step, NoOverflowInt.is_NaN
                         (MemPointerDecomposedFormParser.accumulated_con step)
                       = true)
         (MemPointerDecomposedFormParser.steps policy
            (node_size (in_Address mem)) st0) →
       MemPointerDecomposedFormParser.parse_decomposed_form policy mem
         = Some (trivial_form (in_Address mem))).
Proof.
  split; [exact make_con_valid|]. split; [|split].
  - intros [pointer|] form; [|discriminate].
    rewrite ctor_trivial_Some. by intros [= <-].
  - intros mem. destruct (parse_decomposed_form_total mem) as (form & ? & ? & _).
    eauto.
  - intros mem st0 Hinit Hnan.
    rewrite initial_state_Some in Hinit. injection Hinit as <-.
    apply parse_loop_poisoned in Hnan; [|reflexivity].
    destruct (parse_decomposed_form_cases mem)
      as [[_ Hform] | (st' & Hloop & _)]; [exact Hform|].
    simpl in Hloop. congruence.
Qed.

(** C8: a summand that has a term has a scale that is not zero: the
    constructor asserts it, the parser drops a zero-scale contribution
    instead of pushing it, and no summand of a parsed form has a zero scale.
    Two summands are equal by [operator==] exactly when both have no term,
    or both have the same term and the same valid scale. *)
Theorem summand_invariants_and_equality :
  (∀ variable scale s,
     MemPointerSummand.ctor variable scale = Some s →
     MemPointerSummand._variable s ≠ nullptr
     ∧ NoOverflowInt.is_zero (MemPointerSummand._scale s) = false)
  ∧ (∀ variable scale st,
       NoOverflowInt.is_zero scale = true →
       MemPointerDecomposedFormParser.push_summand variable scale st
         = MemPointerDecomposedFormParser.Continue st)
  ∧ (∀ mem,
       ∃ form,
         MemPointerDecomposedFormParser.parse_decomposed_form policy mem
           = Some form
         ∧ Forall (λ s, MemPointerSummand._variable s ≠ nullptr →
                        NoOverflowInt.is_zero (MemPointerSummand._scale s) = false)
             (MemPointerDecomposedForm._summands form))
  ∧ (∀ a b,
       MemPointerSummand.operator_eq a b = true ↔
         (MemPointerSummand._variable a = nullptr
          ∧ MemPointerSummand._variable b = nullptr)
         ∨ (∃ n m scale,
              MemPointerSummand._variable a = Some n
              ∧ MemPointerSummand._variable b = Some m
              ∧ _idx n = _idx m
              ∧ MemPointerSummand._scale a = NoOverflowInt.Int scale
              ∧ MemPointerSummand._scale b = NoOverflowInt.Int scale)).
Proof.
  split; [|split; [|split]].
  - intros variable scale s (-> & Hvar & Hzero)%summand_ctor_Some. simpl.
    split; [|exact Hzero]. by destruct variable.
  - intros variable scale st Hzero.
    unfold MemPointerDecomposedFormParser.push_summand.
    destruct scale as [|v]; [discriminate|]. simpl in *. by rewrite Hzero.
  - intros mem. destruct (parse_decomposed_form_total mem) as (form & ? & _ & ?).
    eauto.
  - exact operator_eq_spec.
Qed.

(** C9: a [MemPointer] is constructed for a store only: the assertion of
    [init_decomposed_form] fails for any other memory access, a load for
    one, and the construction succeeds for every store. *)
Theorem store_only_precondition :
  (∀ mem, is_Some (MemPointer.ctor policy mem) ↔ is_Store mem = true)
  ∧ (∀ address size,
       MemPointer.ctor policy (mkMemNode false address size) = None).
Proof.
  split; [|reflexivity].
  intros mem. unfold MemPointer.ctor, MemPointer.init_decomposed_form,
    MemPointerDecomposedFormParser.decomposed_form.
  destruct (is_Store mem); simpl.
  - destruct (parse_decomposed_form_total mem) as (form & -> & _). simpl.
    split; [reflexivity | by eexists].
  - split; [by intros [? ?] | discriminate].
Qed.

End ParserProperties.

(** C7, as stated, fails where a node is shared: in [(x + 4) + (x + 4)]
    the node of index 2 is on the worklist twice, and so are its inputs.
    The parse pops the nodes 3, 2, 1, 0, 2, 1, 0 in that order. *)
Lemma parser_revisits_shared_node :
  ∃ st0,
    MemPointerDecomposedFormParser.initial_state shared_expression = Some st0
    ∧ MemPointerDecomposedFormParser.visited decompose_all
        (node_size shared_expression) st0 = [3; 2; 1; 0; 2; 1; 0]
    ∧ ¬ NoDup (MemPointerDecomposedFormParser.visited decompose_all
                 (node_size shared_expression) st0)
    ∧ MemPointerDecomposedFormParser.parse_decomposed_form decompose_all
        (mkMemNode true shared_expression 4)
      = Some (MemPointerDecomposedForm.mk (Some shared_expression)
                (MemPointerSummand.mk (Some (Node_Opaque 0)) (NoOverflowInt.Int 2)
                   :: replicate 9 MemPointerSummand.empty)
                (NoOverflowInt.Int 8)).
Proof.
  eexists. split; [reflexivity|].
  assert (Hvisited :
    MemPointerDecomposedFormParser.visited decompose_all
      (node_size shared_expression)
      (MemPointerDecomposedFormParser.mk (NoOverflowInt.make 0)
         [MemPointerSummand.mk (Some shared_expression) (NoOverflowInt.make 1)] [])
    = [3; 2; 1; 0; 2; 1; 0]) by (vm_compute; reflexivity).
  split; [exact Hvisited|]. split; [|vm_compute; reflexivity].
  rewrite Hvisited. intros Hnodup.
  apply NoDup_cons in Hnodup as [_ Hnodup].
  apply NoDup_cons in Hnodup as [Hnotin _].
  apply Hnotin. do 2 apply list_elem_of_further. apply list_elem_of_here.
Qed.

(** ** The MemPointer Lemma *)

Section MemPointerLemma.

Variable policy : Opcode → NoOverflowInt.t → bool.
Variable env : Z → Z.
Variable obj : MemoryObject.

Lemma sum_summands_Permutation (l1 l2 : list MemPointerSummand.t) :
  l1 ≡ₚ l2 → sum_summands env l1 = sum_summands env l2.
Proof.
  induction 1 as [|s l1 l2 _ IH|s1 s2 l|l1 l2 l3 _ IH1 _ IH2]; simpl; lia.
Qed.

Lemma sum_summands_pairwise (l1 l2 : list MemPointerSummand.t) :
  pairwise_equal l1 l2 → sum_summands env l1 = sum_summands env l2.
Proof.
  induction 1 as [|a b l1 l2 Hab _ IH]; simpl; [reflexivity|].
  rewrite IH. f_equal. unfold summand_value.
  apply operator_eq_spec in Hab
    as [[-> ->] | (n & m & scale & -> & -> & Hidx & -> & ->)];
    [reflexivity | by rewrite Hidx].
Qed.

(** (S3) makes the sums of the summands of the two forms equal. *)
Lemma summands_identical_sum (mp1 mp2 : MemPointerDecomposedForm.t) :
  summands_identical mp1 mp2 = true →
  sum_summands env (MemPointerDecomposedForm._summands mp1)
  = sum_summands env (MemPointerDecomposedForm._summands mp2).
Proof.
  intros Hsame%summands_equal_pairwise%sum_summands_pairwise.
  by rewrite <- (sum_summands_Permutation _ _ (sort_summands_Permutation _)),
    Hsame, (sum_summands_Permutation _ _ (sort_summands_Permutation _)).
Qed.

(** The induction over the decompositions from [p] to [mp]: the two differ
    by a multiple of [array_element_size_in_bytes * 2^32], which is zero
    when the object is no array (only SAFE1 decompositions apply). *)
Lemma safely_decomposed_multiple (p mp : Z) :
  safely_decomposed obj p mp →
  ∃ x, p = mp + x * default 0 (array_element_size_in_bytes obj) * 2 ^ 32.
Proof.
  induction 1 as [p | mp_i mp_i1 mp_n Hsafe _ [x IH]].
  - exists 0. lia.
  - destruct Hsafe as [mp_i | element_size y mp_i mp_i1 Hsize Hstep].
    + by exists x.
    + exists (x + y). rewrite Hsize in *. simpl in *. lia.
Qed.

(** The lemma on the values: for a pointer of value [p1] and one of value
    [p2], both in the bounds of the object, and forms reached from them by
    safe decompositions, with identical summands and constants less than
    [2^31] apart. *)
Lemma safely_decomposed_difference (mp1 mp2 : MemPointerDecomposedForm.t)
    (p1 p2 con1 con2 : Z) :
  valid_object obj →
  safely_decomposed obj p1 (form_value env mp1) →
  safely_decomposed obj p2 (form_value env mp2) →
  in_bounds obj p1 → in_bounds obj p2 →
  MemPointerDecomposedForm._con mp1 = NoOverflowInt.Int con1 →
  MemPointerDecomposedForm._con mp2 = NoOverflowInt.Int con2 →
  Z.abs (con1 - con2) < 2 ^ 31 →
  summands_identical mp1 mp2 = true →
  form_value env mp1 - form_value env mp2 = con1 - con2
  ∧ p1 - p2 = con1 - con2.
Proof.
  intros Hobj [x1 Hp1]%safely_decomposed_multiple
    [x2 Hp2]%safely_decomposed_multiple Hb1 Hb2 Hcon1 Hcon2 HS2 HS3.
  assert (Hmp : form_value env mp1 - form_value env mp2 = con1 - con2).
  { unfold form_value. rewrite Hcon1, Hcon2, (summands_identical_sum _ _ HS3).
    simpl. lia. }
  split; [exact Hmp|].
  unfold valid_object, in_bounds, max_possible_array_size_in_bytes in *.
  destruct (array_element_size_in_bytes obj) as [element_size|];
    simpl in *; [|lia].
  destruct Hobj as [Hsize Hmax].
  destruct (Z.eq_dec x1 x2) as [->|Hx]; [lia|]. exfalso.
  assert (Hfar : element_size * 2 ^ 32
                 <= Z.abs ((x1 - x2) * element_size * 2 ^ 32)) by nia.
  lia.
Qed.

(** *** The decompositions of the parser are safe *)

Lemma add_Int (a b : NoOverflowInt.t) (r : Z) :
  NoOverflowInt.add a b = NoOverflowInt.Int r →
  ∃ x y, a = NoOverflowInt.Int x ∧ b = NoOverflowInt.Int y ∧ r = x + y.
Proof.
  destruct a as [|x], b as [|y]; simpl; try discriminate.
  intros [-> _]%make_Int. eauto.
Qed.

Lemma sub_Int (a b : NoOverflowInt.t) (r : Z) :
  NoOverflowInt.sub a b = NoOverflowInt.Int r →
  ∃ x y, a = NoOverflowInt.Int x ∧ b = NoOverflowInt.Int y ∧ r = x - y.
Proof.
  destruct a as [|x], b as [|y]; simpl; try discriminate.
  intros [-> _]%make_Int. eauto.
Qed.

Lemma mul_Int (a b : NoOverflowInt.t) (r : Z) :
  NoOverflowInt.mul a b = NoOverflowInt.Int r →
  ∃ x y, a = NoOverflowInt.Int x ∧ b = NoOverflowInt.Int y ∧ r = x * y.
Proof.
  destruct a as [|x], b as [|y]; simpl; try discriminate.
  intros [-> _]%make_Int. eauto.
Qed.

Lemma pow2_Int (c r : Z) :
  NoOverflowInt.pow2 c = NoOverflowInt.Int r → r = 2 ^ c.
Proof.
  unfold NoOverflowInt.pow2. destruct (c <? 0); [discriminate|].
  by intros [-> _]%make_Int.
Qed.

Lemma safe_decomposition_shift (x y x' y' c : Z) :
  safe_decomposition obj x y → x' = x + c → y' = y + c →
  safe_decomposition obj x' y'.
Proof.
  intros [mp_i | element_size k mp_i mp_i1 Hsize Hstep] -> ->.
  - apply SAFE1.
  - apply (SAFE2 obj element_size k); [exact Hsize | lia].
Qed.

Lemma safe_decomposition_eq (x y : Z) : x = y → safe_decomposition obj x y.
Proof. intros ->. apply SAFE1. Qed.

Lemma sum_summands_app (l1 l2 : list MemPointerSummand.t) :
  sum_summands env (l1 ++ l2) = sum_summands env l1 + sum_summands env l2.
Proof. induction l1 as [|s l1 IH]; simpl; lia. Qed.

Lemma sum_summands_delete (l : list MemPointerSummand.t) :
  ∀ (i : nat) (x : MemPointerSummand.t),
    l !! i = Some x →
    sum_summands env (delete i l) = sum_summands env l - summand_value env x.
Proof.
  induction l as [|s l IH]; intros [|i] x Hi; simpl in *; try discriminate.
  - injection Hi as ->. lia.
  - rewrite (IH i x Hi). lia.
Qed.

Lemma sum_summands_insert (l : list MemPointerSummand.t) :
  ∀ (i : nat) (x y : MemPointerSummand.t),
    l !! i = Some x →
    sum_summands env (<[i := y]> l)
    = sum_summands env l - summand_value env x + summand_value env y.
Proof.
  induction l as [|s l IH]; intros [|i] x y Hi; simpl in *; try discriminate.
  - injection Hi as ->. lia.
  - rewrite (IH i x y Hi). lia.
Qed.

Lemma sum_summands_empty (n : nat) :
  sum_summands env (replicate n MemPointerSummand.empty) = 0.
Proof. induction n as [|n IH]; simpl; [reflexivity|]. rewrite IH. reflexivity. Qed.

Local Abbreviation value_of := (state_value env).
Local Abbreviation on_worklist := (summand_decomposable policy env obj).

(** A push adds [scale * variable] to the value of the state. *)
Lemma push_summand_value (variable : Node) (scale : NoOverflowInt.t)
    (st st' : MemPointerDecomposedFormParser.state) :
  MemPointerDecomposedFormParser.push_summand variable scale st
    = MemPointerDecomposedFormParser.Continue st' →
  ∃ k, scale = NoOverflowInt.Int k
       ∧ value_of st' = k * env (_idx variable) + value_of st
       ∧ (decomposable policy env obj variable →
          Forall on_worklist (MemPointerDecomposedFormParser._worklist st) →
          Forall on_worklist (MemPointerDecomposedFormParser._worklist st')).
Proof.
  unfold MemPointerDecomposedFormParser.push_summand.
  destruct scale as [|k]; simpl; [discriminate|]. exists k.
  split; [reflexivity|].
  destruct (Z.eqb_spec k 0) as [->|Hk].
  - injection H as <-. split; [lia | auto].
  - rewrite summand_ctor_spec in H. simpl in H.
    destruct (Z.eqb_spec k 0); [done|]. injection H as <-.
    unfold state_value. simpl. unfold summand_value. simpl. split; [lia|].
    intros Hvar Hwork. by constructor.
Qed.

(** A terminal summand is added to the value of the state as it is. *)
Lemma add_terminal_value (s : MemPointerSummand.t)
    (st st' : MemPointerDecomposedFormParser.state) :
  MemPointerDecomposedFormParser.add_terminal s st
    = MemPointerDecomposedFormParser.Continue st' →
  value_of st' = summand_value env s + value_of st.
Proof.
  unfold MemPointerDecomposedFormParser.add_terminal, state_value.
  destruct (list_find _ _) as [[i x]|] eqn:Hfind.
  - apply list_find_Some in Hfind as (Hi & Hsame & _).
    destruct (NoOverflowInt.add _ _) as [|r] eqn:Hadd; simpl; [discriminate|].
    apply add_Int in Hadd as (a & b & Hx & Hs & ->).
    unfold same_node in Hsame.
    destruct (MemPointerSummand._variable x) as [m|] eqn:Hvarx,
      (MemPointerSummand._variable s) as [n|] eqn:Hvars; try discriminate.
    + apply Z.eqb_eq in Hsame.
      assert (Hvx : summand_value env x = a * env (_idx n)).
      { unfold summand_value. by rewrite Hvarx, Hx, Hsame. }
      assert (Hvs : summand_value env s = b * env (_idx n)).
      { unfold summand_value. by rewrite Hvars, Hs. }
      destruct (Z.eqb_spec (a + b) 0) as [Hzero|Hzero].
      * intros [= <-]. simpl.
        rewrite (sum_summands_delete _ i x Hi), Hvx, Hvs.
        assert (b = - a) as -> by lia. lia.
      * rewrite summand_ctor_spec. simpl.
        destruct (Z.eqb_spec (a + b) 0); [done|].
        intros [= <-]. simpl.
        rewrite (sum_summands_insert _ i x _ Hi), Hvx, Hvs.
        unfold summand_value. simpl. lia.
    + destruct (a + b =? 0); [|by rewrite summand_ctor_spec].
      intros [= <-]. simpl.
      rewrite (sum_summands_delete _ i x Hi).
      unfold summand_value. rewrite Hvarx, Hvars. lia.
  - destruct (_ <=? _)%nat; [discriminate|].
    intros [= <-]. simpl. rewrite sum_summands_app. simpl. lia.
Qed.

Ltac case_safe :=
  match goal with
  | |- context [policy ?op ?scale] => destruct (policy op scale) eqn:Hsafe
  end.

(** One step of the parser is a safe decomposition of the state. *)
Lemma parse_sub_expression_safe (st st' : MemPointerDecomposedFormParser.state)
    (s : MemPointerSummand.t) :
  MemPointerDecomposedFormParser.parse_sub_expression policy st s
    = MemPointerDecomposedFormParser.Continue st' →
  NoOverflowInt.is_NaN (MemPointerSummand._scale s) = false →
  on_worklist s →
  Forall on_worklist (MemPointerDecomposedFormParser._worklist st) →
  safe_decomposition obj (summand_value env s + value_of st) (value_of st')
  ∧ Forall on_worklist (MemPointerDecomposedFormParser._worklist st').
Proof.
  intros Hstep [k Hscale]%is_NaN_false Hdec Hwork.
  assert (Hterminal :
    MemPointerDecomposedFormParser.add_terminal s st
      = MemPointerDecomposedFormParser.Continue st' →
    safe_decomposition obj (summand_value env s + value_of st) (value_of st')
    ∧ Forall on_worklist (MemPointerDecomposedFormParser._worklist st')).
  { intros Hadd. split.
    - apply safe_decomposition_eq. by rewrite (add_terminal_value _ _ _ Hadd).
    - apply add_terminal_Continue in Hadd as (_ & -> & _). exact Hwork. }
  revert Hstep Hdec Hterminal.
  unfold MemPointerDecomposedFormParser.parse_sub_expression,
    summand_decomposable, summand_value.
  destruct (MemPointerSummand._variable s) as [n|]; [|discriminate].
  rewrite Hscale.
  destruct n as [idx value | idx a b | idx a b | idx a multiplier
                 | idx a shift | idx a | idx]; cbn [decomposable].
  - destruct (NoOverflowInt.add _ _) as [|r] eqn:Hadd; [discriminate|].
    intros [= <-] Hvalue _.
    apply add_Int in Hadd as (c & m & Hcon & Hmul & ->).
    apply mul_Int in Hmul as (k' & v & [= <-] & [-> _]%make_Int & ->).
    split; [|exact Hwork].
    apply safe_decomposition_eq. unfold state_value. simpl.
    rewrite Hcon, Hvalue. simpl. lia.
  - case_safe; [|by auto].
    intros (st1 & Ha & Hb)%and_then_Continue (Hsafe_at & Hdeca & Hdecb) _.
    apply push_summand_value in Ha as (ka & [= <-] & Hva & Hwa).
    apply push_summand_value in Hb as (kb & [= <-] & Hvb & Hwb).
    split; [|by auto].
    apply (safe_decomposition_shift _ _ _ _ (value_of st) (Hsafe_at k Hsafe));
      simpl; lia.
  - case_safe; [|by auto].
    intros (st1 & Ha & Hb)%and_then_Continue (Hsafe_at & Hdeca & Hdecb) _.
    apply push_summand_value in Ha as (ka & [= <-] & Hva & Hwa).
    apply push_summand_value in Hb as (kb & Hkb & Hvb & Hwb).
    apply sub_Int in Hkb as (z & k' & [-> _]%make_Int & [= <-] & ->).
    split; [|by auto].
    apply (safe_decomposition_shift _ _ _ _ (value_of st) (Hsafe_at k Hsafe));
      simpl; lia.
  - case_safe; [|by auto].
    intros Ha (Hsafe_at & Hdeca) _.
    apply push_summand_value in Ha as (ka & Hka & Hva & Hwa).
    apply mul_Int in Hka as (k' & m & [= <-] & [-> _]%make_Int & ->).
    split; [|by auto].
    apply (safe_decomposition_shift _ _ _ _ (value_of st) (Hsafe_at k Hsafe));
      simpl; lia.
  - case_safe; [|by auto].
    intros Ha (Hsafe_at & Hdeca) _.
    apply push_summand_value in Ha as (ka & Hka & Hva & Hwa).
    apply mul_Int in Hka as (k' & m & [= <-] & ->%pow2_Int & ->).
    split; [|by auto].
    apply (safe_decomposition_shift _ _ _ _ (value_of st) (Hsafe_at k Hsafe));
      simpl; lia.
  - case_safe; [|by auto].
    intros Ha (Hsafe_at & Hdeca) _.
    apply push_summand_value in Ha as (ka & [= <-] & Hva & Hwa).
    split; [|by auto].
    apply (safe_decomposition_shift _ _ _ _ (value_of st) (Hsafe_at k Hsafe));
      simpl; lia.
  - by auto.
Qed.

(** The loop decomposes the value of the state it starts from safely. *)
Lemma parse_loop_safe (fuel : nat) :
  ∀ st st' : MemPointerDecomposedFormParser.state,
    MemPointerDecomposedFormParser.parse_loop policy fuel st
      = MemPointerDecomposedFormParser.Parsed st' →
    state_ok st →
    Forall on_worklist (MemPointerDecomposedFormParser._worklist st) →
    safely_decomposed obj (value_of st) (value_of st')
    ∧ MemPointerDecomposedFormParser._worklist st' = [].
Proof.
  induction fuel as [|fuel IH]; intros [con [|s worklist] summands] st';
    simpl; try discriminate.
  - intros [= <-] _ _. split; [apply decomposed_trivial | reflexivity].
  - intros [= <-] _ _. split; [apply decomposed_trivial | reflexivity].
  - destruct (MemPointerDecomposedFormParser.parse_sub_expression _ _ _)
      as [st1| |] eqn:Hstep; try discriminate.
    intros Hloop Hok [Hs Hwork]%Forall_cons.
    pose proof Hok as (Hcon & [Hvalid Hvalids]%Forall_cons & Hsum & Hlen).
    simpl in *.
    destruct (parse_sub_expression_safe _ _ _ Hstep) as [Hsafe Hwork1];
      [by destruct Hvalid as [[_ Hscale] _] | exact Hs | exact Hwork |].
    destruct (IH st1 st' Hloop) as [Hrest Hempty]; [|exact Hwork1|].
    { eapply parse_sub_expression_ok; eauto. by repeat split. }
    split; [|exact Hempty].
    apply (decomposed_step obj _ (value_of st1)); [|exact Hrest].
    apply (safe_decomposition_shift _ _ _ _ 0 Hsafe); [|lia].
    unfold state_value. simpl. lia.
Qed.

(** The form the parser returns for a pointer is reached from the pointer
    by safe decompositions, wherever [is_safe_to_decompose_op] keeps its
    contract. *)
Lemma parse_decomposed_form_safe (mem : MemNode)
    (mp : MemPointerDecomposedForm.t) :
  decomposable policy env obj (in_Address mem) →
  MemPointerDecomposedFormParser.parse_decomposed_form policy mem = Some mp →
  safely_decomposed obj (env (_idx (in_Address mem))) (form_value env mp).
Proof.
  intros Hdec Hparse.
  destruct (parse_decomposed_form_cases policy mem)
    as [[_ Hform] | (st' & Hloop & _ & Hform)];
    rewrite Hform in Hparse; injection Hparse as <-.
  - replace (form_value env (trivial_form (in_Address mem)))
      with (env (_idx (in_Address mem))); [apply decomposed_trivial|].
    unfold form_value, trivial_form. simpl. unfold summand_value. simpl. lia.
  - apply parse_loop_safe in Hloop as [Hsafe Hempty];
      [|apply initial_state_ok | by repeat constructor].
    replace (env (_idx (in_Address mem)))
      with (value_of (MemPointerDecomposedFormParser.mk (NoOverflowInt.Int 0)
              [MemPointerSummand.mk (Some (in_Address mem)) (NoOverflowInt.Int 1)]
              []))
      by (unfold state_value; simpl; unfold summand_value; simpl; lia).
    replace (form_value env _) with (value_of st'); [exact Hsafe|].
    unfold state_value, form_value. simpl.
    rewrite Hempty, sum_summands_app, sum_summands_empty. simpl. lia.
Qed.


End MemPointerLemma.

(** With every value computed exactly, decomposing is SAFE1 at every node
    of the two accesses [array[i + 0]] and [array[i + 1]]. *)
Lemma near_decomposable :
  decomposable decompose_all near_env near_object near_p1
  ∧ decomposable decompose_all near_env near_object near_p2.
Proof.
  unfold near_p1, near_p2, near_pointer. cbn [decomposable].
  repeat match goal with |- _ ∧ _ => split end;
    try reflexivity; intros scale _; by apply safe_decomposition_eq.
Qed.

Lemma far_decomposable :
  decomposable decompose_all far_env far_object far_p1
  ∧ decomposable decompose_all far_env far_object far_p2.
Proof.
  unfold far_p1, far_p2. cbn [decomposable].
  repeat match goal with |- _ ∧ _ => split end;
    try reflexivity; intros scale _; by apply safe_decomposition_eq.
Qed.



(** An index that overflows: with [i = 2^31 - 1] the [int] addition
    [i + 1] wraps to [-2^31].  Decomposing it at a scale that is a multiple
    of the element size 4 is no SAFE1 decomposition but a SAFE2 one: the
    contract of [is_safe_to_decompose_op] holds of [4 * ConvI2L(i + 1)]. *)
Example overflowing_index_is_SAFE2 :
  exact_value wrapped_env wrapped_add ≠ wrapped_env (_idx wrapped_add)
  ∧ decomposable (scale_multiple_of 4) wrapped_env near_object
      (Node_ScalarMultiply 3 (Node_WideningConvert 4 wrapped_add) 4).
Proof.
  split; [vm_compute; discriminate|].
  unfold wrapped_add. cbn [decomposable].
  repeat match goal with |- _ ∧ _ => split end; try reflexivity;
    intros scale Hsafe; try (by apply safe_decomposition_eq).
  apply Z.eqb_eq in Hsafe.
  apply (SAFE2 near_object 4 (- (scale / 4))); [reflexivity|].
  change (wrapped_env (_idx (Node_Add 5 near_index (Node_Literal 6 1))))
    with (- 2 ^ 31).
  change (exact_value wrapped_env (Node_Add 5 near_index (Node_Literal 6 1)))
    with (2 ^ 31 - 1 + 1).
  pose proof (Z.div_mod scale 4). lia.
Qed.

(** ** The examples of the specification *)

(** [array[i]] and [array[i + 1]] decompose to [16 + 4 * i + 1 * array] and
    [20 + 4 * i + 1 * array]; the verdict is [Always(4)], and the first
    access, 4 bytes wide, is adjacent to and before the second. *)
Example array_i_and_array_i_plus_1 :
  MemPointer.ctor decompose_all (mkMemNode true near_p1 4)
    = Some (MemPointer.mk (mkMemNode true near_p1 4) (near_form near_p1 16))
  ∧ MemPointer.ctor decompose_all (mkMemNode true near_p2 4)
      = Some (MemPointer.mk (mkMemNode true near_p2 4) (near_form near_p2 20))
  ∧ MemPointerDecomposedForm.get_aliasing_with
      (near_form near_p1 16) (near_form near_p2 20)
      = Some (MemPointerAliasing.mk MemPointerAliasing.Always 4)
  ∧ MemPointer.is_adjacent_to_and_before
      (MemPointer.mk (mkMemNode true near_p1 4) (near_form near_p1 16))
      (MemPointer.mk (mkMemNode true near_p2 4) (near_form near_p2 20))
      = Some true
  ∧ MemPointer.is_adjacent_to_and_before
      (MemPointer.mk (mkMemNode true near_p2 4) (near_form near_p2 20))
      (MemPointer.mk (mkMemNode true near_p1 4) (near_form near_p1 16))
      = Some false.
Proof. repeat split; vm_compute; reflexivity. Qed.

(** [array[i]] and [array[j]]: same base, different index terms. *)
Example array_i_and_array_j :
  MemPointerDecomposedForm.get_aliasing_with
    (near_form near_p1 16)
    (MemPointerDecomposedForm.mk (Some near_p2)
       (MemPointerSummand.mk (Some (Node_Opaque 12)) (NoOverflowInt.Int 4)
          :: MemPointerSummand.mk (Some near_array) (NoOverflowInt.Int 1)
          :: replicate 8 MemPointerSummand.empty)
       (NoOverflowInt.Int 16))
  = Some (MemPointerAliasing.mk MemPointerAliasing.Unknown 0).
Proof. vm_compute. reflexivity. Qed.

(** A constant that overflows: [1 + 2147483647].  The second literal
    poisons the running constant, and the parse falls back to the trivial
    form. *)
Example constant_overflow_parses_to_trivial :
  let pointer := Node_Add 1 (Node_Literal 2 2147483647) (Node_Literal 3 1) in
  let st0 :=
    MemPointerDecomposedFormParser.mk (NoOverflowInt.Int 0)
      [MemPointerSummand.mk (Some pointer) (NoOverflowInt.Int 1)] [] in
  MemPointerDecomposedFormParser.accumulated_con
    <$> MemPointerDecomposedFormParser.steps decompose_all (node_size pointer) st0
    = [NoOverflowInt.Int 0; NoOverflowInt.Int 1; NoOverflowInt.NaN]
  ∧ MemPointerDecomposedFormParser.parse_decomposed_form decompose_all
      (mkMemNode true pointer 4) = Some (trivial_form pointer).
Proof. split; vm_compute; reflexivity. Qed.

(** A pointer expression of eleven distinct terminal terms parses to the
    trivial form. *)
Example eleven_terms_parse_to_trivial :
  let sum :=
    foldr (λ idx acc, Node_Add (100 + idx) (Node_Opaque idx) acc)
      (Node_Opaque 0) [1; 2; 3; 4; 5; 6; 7; 8; 9; 10] in
  MemPointerDecomposedFormParser.parse_decomposed_form decompose_all
    (mkMemNode true sum 4) = Some (trivial_form sum).
Proof. vm_compute. reflexivity. Qed.

(** * Further properties of the header *)

(** ** Summands: equality and the sort comparator *)

Lemma NoOverflowInt_eq_sym (x y : NoOverflowInt.t) :
  NoOverflowInt.eq x y = NoOverflowInt.eq y x.
Proof. destruct x, y; simpl; auto using Z.eqb_sym. Qed.

Lemma same_node_sym (p q : NodePtr) : same_node p q = same_node q p.
Proof. destruct p, q; simpl; auto using Z.eqb_sym. Qed.

(** X1: [operator==] on summands is symmetric and transitive, and a
    summand is equal to itself exactly when it has no variable or a valid
    scale. *)
Theorem summand_equality_partial_equivalence :
  (∀ a b, MemPointerSummand.operator_eq a b = MemPointerSummand.operator_eq b a)
  ∧ (∀ a b c,
       MemPointerSummand.operator_eq a b = true →
       MemPointerSummand.operator_eq b c = true →
       MemPointerSummand.operator_eq a c = true)
  ∧ (∀ a,
       MemPointerSummand.operator_eq a a = true ↔
         MemPointerSummand._variable a = nullptr
         ∨ NoOverflowInt.is_NaN (MemPointerSummand._scale a) = false).
Proof.
  split; [|split].
  - intros a b. unfold MemPointerSummand.operator_eq.
    rewrite (same_node_sym (MemPointerSummand._variable a)),
      (NoOverflowInt_eq_sym (MemPointerSummand._scale a)), andb_comm.
    reflexivity.
  - intros a b c Hab Hbc.
    apply operator_eq_spec in Hab
      as [[Ha Hb] | (n & m & scale & Ha & Hb & Hnm & Hsa & Hsb)];
      apply operator_eq_spec in Hbc
        as [[Hb' Hc] | (m' & k & scale' & Hb' & Hc & Hmk & Hsb' & Hsc)];
      apply operator_eq_spec; unfold nullptr in *; try congruence.
    + by left.
    + right. exists n, k, scale. repeat split; congruence.
  - intros a. rewrite operator_eq_spec. unfold nullptr. split.
    + intros [[Ha _] | (n & m & scale & _ & _ & _ & Hs & _)]; [by left|].
      right. by rewrite Hs.
    + intros [Ha | Hs]; [by left|].
      destruct (MemPointerSummand._variable a) as [n|] eqn:Hvar; [|by left].
      apply is_NaN_false in Hs as [scale Hs].
      right. by exists n, n, scale.
Qed.

(** X2: on summands whose node indices are below [2^31], [cmp_for_sort] is
    an ordering by node index with the empty summands last: it is
    antisymmetric, it is nonpositive exactly when the first summand is not
    after the second, zero exactly when the two variables are the same
    node, and transitive. *)
Theorem cmp_for_sort_orders_by_idx (a b c : MemPointerSummand.t) :
  idx_in_range a → idx_in_range b → idx_in_range c →
  MemPointerSummand.cmp_for_sort a b = - MemPointerSummand.cmp_for_sort b a
  ∧ (MemPointerSummand.cmp_for_sort a b <= 0 ↔ identity_le a b)
  ∧ (MemPointerSummand.cmp_for_sort a b = 0 ↔
       same_node (MemPointerSummand._variable a)
         (MemPointerSummand._variable b) = true)
  ∧ (MemPointerSummand.cmp_for_sort a b <= 0 →
     MemPointerSummand.cmp_for_sort b c <= 0 →
     MemPointerSummand.cmp_for_sort a c <= 0).
Proof.
  intros Ha Hb Hc.
  split; [|split; [by apply summand_le_identity|split]].
  - unfold idx_in_range, MemPointerSummand.cmp_for_sort in *.
    destruct (MemPointerSummand._variable a) as [n|],
             (MemPointerSummand._variable b) as [m|]; try lia.
    rewrite !to_jint_small by lia. lia.
  - unfold idx_in_range, MemPointerSummand.cmp_for_sort, same_node in *.
    destruct (MemPointerSummand._variable a) as [n|],
             (MemPointerSummand._variable b) as [m|];
      try (split; [lia | discriminate]); [|done].
    rewrite to_jint_small by lia. rewrite Z.eqb_eq. lia.
  - intros Hab Hbc.
    apply (summand_le_identity a c Ha Hc).
    apply (identity_le_trans a b c); by apply summand_le_identity.
Qed.

(** [cmp_for_sort] on the summands of the nodes 3, 7 and of no node. *)
Lemma cmp_for_sort_orders_by_idx_witness :
  let a := MemPointerSummand.mk (Some (Node_Opaque 3)) (NoOverflowInt.Int 4) in
  let b := MemPointerSummand.mk (Some (Node_Opaque 7)) (NoOverflowInt.Int 1) in
  let c := MemPointerSummand.empty in
  MemPointerSummand.cmp_for_sort a b = - MemPointerSummand.cmp_for_sort b a
  ∧ (MemPointerSummand.cmp_for_sort a b <= 0 ↔ identity_le a b)
  ∧ (MemPointerSummand.cmp_for_sort a b = 0 ↔
       same_node (MemPointerSummand._variable a)
         (MemPointerSummand._variable b) = true)
  ∧ (MemPointerSummand.cmp_for_sort a b <= 0 →
     MemPointerSummand.cmp_for_sort b c <= 0 →
     MemPointerSummand.cmp_for_sort a c <= 0).
Proof.
  apply cmp_for_sort_orders_by_idx; unfold idx_in_range; simpl; lia.
Defined.

(** X3: two summands that are equal by [operator==] compare equal under
    [cmp_for_sort], whatever their node indices. *)
Theorem equal_summands_compare_equal (a b : MemPointerSummand.t) :
  MemPointerSummand.operator_eq a b = true →
  MemPointerSummand.cmp_for_sort a b = 0.
Proof.
  intros [[Ha Hb] | (n & m & scale & Ha & Hb & Hidx & _)]%operator_eq_spec;
    unfold MemPointerSummand.cmp_for_sort, nullptr in *; rewrite Ha, Hb;
    [reflexivity|].
  rewrite Hidx, Z.sub_diag. reflexivity.
Qed.

Lemma equal_summands_compare_equal_witness :
  MemPointerSummand.cmp_for_sort
    (MemPointerSummand.mk (Some (Node_Opaque 3)) (NoOverflowInt.Int 4))
    (MemPointerSummand.mk (Some (Node_Add 3 (Node_Opaque 1) (Node_Opaque 2)))
       (NoOverflowInt.Int 4)) = 0.
Proof. apply equal_summands_compare_equal. reflexivity. Defined.

(** ** The verdict at a distance *)

(** X4: a constructed verdict is [is_always_at_distance(d)] exactly when it
    was built as [Always] with the distance [d]: the verdict of
    [make_unknown] is at no distance, not even at the distance 0 it
    stores, and a verdict is at one distance at most. *)
Theorem is_always_at_distance_exact :
  (∀ aliasing distance verdict d,
     MemPointerAliasing.ctor aliasing distance = Some verdict →
     (MemPointerAliasing.is_always_at_distance verdict d = true ↔
        aliasing = MemPointerAliasing.Always ∧ d = distance))
  ∧ (∀ verdict d,
       MemPointerAliasing.make_unknown = Some verdict →
       MemPointerAliasing.is_always_at_distance verdict d = false)
  ∧ (∀ verdict d1 d2,
       MemPointerAliasing.is_always_at_distance verdict d1 = true →
       MemPointerAliasing.is_always_at_distance verdict d2 = true →
       d1 = d2).
Proof.
  split; [|split].
  - intros aliasing distance verdict d. rewrite aliasing_ctor_spec.
    case_bool_decide; [|discriminate]. intros [= <-].
    unfold MemPointerAliasing.is_always_at_distance. simpl.
    destruct aliasing; simpl.
    + split; [discriminate | by intros [? _]].
    + rewrite Z.eqb_eq. split; [by intros -> | by intros [_ ->]].
  - intros verdict d. rewrite make_unknown_Some. by intros [= <-].
  - intros verdict d1 d2.
    unfold MemPointerAliasing.is_always_at_distance.
    intros [_ H1%Z.eqb_eq]%andb_prop [_ H2%Z.eqb_eq]%andb_prop. congruence.
Qed.

(** ** [make] and [summands_at] *)

Lemma stored_ok_or_refused (l : list MemPointerSummand.t) :
  Forall stored_ok l ∨ Exists refused_summand l.
Proof.
  induction l as [|s l [IH|IH]]; [by left| |right; by constructor].
  unfold stored_ok, refused_summand, nullptr in *.
  destruct (MemPointerSummand._variable s) as [n|] eqn:Hvar;
    [|right; constructor; rewrite Hvar; by left].
  destruct (NoOverflowInt.is_NaN (MemPointerSummand._scale s)) eqn:Hscale;
    [right; constructor; by right|].
  left. constructor; [|exact IH]. by rewrite Hvar.
Qed.

Lemma copy_summands_refused (l : list MemPointerSummand.t) :
  ∀ (i : nat) (array : list MemPointerSummand.t),
    Exists refused_summand l →
    MemPointerDecomposedForm.copy_summands i l array = None.
Proof.
  induction l as [|s l IH]; intros i array Hex; [by apply Exists_nil in Hex|].
  simpl. apply Exists_cons in Hex as [[Hvar|Hscale]|Hex].
  - by rewrite Hvar.
  - rewrite Hscale. by destruct (is_nullptr _).
  - rewrite IH by done.
    by destruct (is_nullptr _), (NoOverflowInt.is_NaN _).
Qed.

(** X5: the form [make] returns for at most [SUMMANDS_SIZE] summands keeps
    the pointer and the constant, and [summands_at] reads the summands back
    in their order, an empty summand in every unused slot, and fails its
    assertion from index [SUMMANDS_SIZE] on. *)
Theorem make_summands_at_round_trip (pointer : NodePtr)
    (summands : list MemPointerSummand.t) (con : NoOverflowInt.t)
    (form : MemPointerDecomposedForm.t) :
  (length summands ≤ MemPointerDecomposedForm.SUMMANDS_SIZE)%nat →
  MemPointerDecomposedForm.make pointer summands con = Some form →
  MemPointerDecomposedForm._pointer form = pointer
  ∧ MemPointerDecomposedForm._con form = con
  ∧ length (MemPointerDecomposedForm._summands form)
      = MemPointerDecomposedForm.SUMMANDS_SIZE
  ∧ ∀ i : nat,
      MemPointerDecomposedForm.summands_at form i =
        if (i <? MemPointerDecomposedForm.SUMMANDS_SIZE)%nat
        then Some (default MemPointerSummand.empty (summands !! i))
        else None.
Proof.
  intros Hlen Hmake.
  assert (Hcon : NoOverflowInt.is_NaN con = false).
  { apply make_con_valid in Hmake as Hvalid.
    revert Hmake. unfold MemPointerDecomposedForm.make.
    destruct (Nat.leb_spec (length summands) MemPointerDecomposedForm.SUMMANDS_SIZE);
      [|lia].
    unfold MemPointerDecomposedForm.ctor_summands.
    by destruct (NoOverflowInt.is_NaN con). }
  revert Hmake. unfold MemPointerDecomposedForm.make.
  destruct (Nat.leb_spec (length summands) MemPointerDecomposedForm.SUMMANDS_SIZE);
    [|lia].
  destruct (stored_ok_or_refused summands) as [Hok|Hbad].
  - rewrite ctor_summands_spec by done. intros [= <-]. simpl.
    split; [reflexivity|]. split; [reflexivity|]. split.
    { rewrite length_app, length_replicate. lia. }
    intros i. unfold MemPointerDecomposedForm.summands_at. simpl.
    destruct (Nat.ltb_spec i MemPointerDecomposedForm.SUMMANDS_SIZE) as [Hi|Hi];
      [|reflexivity].
    simpl. destruct (summands !! i) as [s|] eqn:Hsi; simpl.
    + by apply lookup_app_l_Some.
    + apply lookup_ge_None in Hsi.
      rewrite lookup_app_r by done. apply lookup_replicate_2. lia.
  - unfold MemPointerDecomposedForm.ctor_summands.
    rewrite Hcon, copy_summands_refused by done. simpl.
    by destruct (assert_ok _).
Qed.

(** The form of the two summands [4 * i] and [1 * array]. *)
Lemma make_summands_at_round_trip_witness :
  let summands :=
    [MemPointerSummand.mk (Some near_index) (NoOverflowInt.Int 4);
     MemPointerSummand.mk (Some near_array) (NoOverflowInt.Int 1)] in
  MemPointerDecomposedForm._pointer (near_form near_p1 16) = Some near_p1
  ∧ MemPointerDecomposedForm._con (near_form near_p1 16) = NoOverflowInt.Int 16
  ∧ length (MemPointerDecomposedForm._summands (near_form near_p1 16))
      = MemPointerDecomposedForm.SUMMANDS_SIZE
  ∧ ∀ i : nat,
      MemPointerDecomposedForm.summands_at (near_form near_p1 16) i =
        if (i <? MemPointerDecomposedForm.SUMMANDS_SIZE)%nat
        then Some (default MemPointerSummand.empty (summands !! i))
        else None.
Proof.
  apply (make_summands_at_round_trip (Some near_p1)
           [MemPointerSummand.mk (Some near_index) (NoOverflowInt.Int 4);
            MemPointerSummand.mk (Some near_array) (NoOverflowInt.Int 1)]
           (NoOverflowInt.Int 16) (near_form near_p1 16));
    [vm_compute; lia | reflexivity].
Defined.

(** X6: [make] fails an assertion exactly when the summands fit and the
    constant is [NaN] or one of the summands has no variable or a [NaN]
    scale (it does not fall back to the trivial form then), or when the
    summands do not fit and the pointer is null. *)
Theorem make_fails_exactly_when (pointer : NodePtr)
    (summands : list MemPointerSummand.t) (con : NoOverflowInt.t) :
  MemPointerDecomposedForm.make pointer summands con = None ↔
    ((length summands ≤ MemPointerDecomposedForm.SUMMANDS_SIZE)%nat
     ∧ (NoOverflowInt.is_NaN con = true ∨ Exists refused_summand summands))
    ∨ ((MemPointerDecomposedForm.SUMMANDS_SIZE < length summands)%nat
       ∧ pointer = nullptr).
Proof.
  unfold MemPointerDecomposedForm.make.
  destruct (Nat.leb_spec (length summands) MemPointerDecomposedForm.SUMMANDS_SIZE)
    as [Hlen|Hlen].
  - split.
    + intros Hnone. left. split; [exact Hlen|].
      destruct (NoOverflowInt.is_NaN con) eqn:Hcon; [by left|]. right.
      destruct (stored_ok_or_refused summands) as [Hok|Hbad]; [|exact Hbad].
      by rewrite ctor_summands_spec in Hnone.
    + intros [[_ [Hcon|Hbad]] | [Hlen' _]]; [| |lia];
        unfold MemPointerDecomposedForm.ctor_summands.
      * by rewrite Hcon.
      * rewrite copy_summands_refused by done.
        by destruct (NoOverflowInt.is_NaN con), (assert_ok _).
  - split.
    + intros Hnone. right. split; [exact Hlen|].
      destruct pointer as [p|]; [|reflexivity].
      by rewrite ctor_trivial_Some in Hnone.
    + intros [[Hlen' _] | [_ ->]]; [lia | reflexivity].
Qed.

(** * Properties of RegionsTree *)

Lemma to_size_t_add_r (a b : Z) :
  RegionsTree.to_size_t (a + RegionsTree.to_size_t b) = RegionsTree.to_size_t (a + b).
Proof. unfold RegionsTree.to_size_t. by rewrite Z.add_mod_idemp_r. Qed.

Lemma to_size_t_add_l (a b : Z) :
  RegionsTree.to_size_t (RegionsTree.to_size_t a + b) = RegionsTree.to_size_t (a + b).
Proof. unfold RegionsTree.to_size_t. by rewrite Z.add_mod_idemp_l. Qed.

Lemma to_size_t_small (a : Z) : 0 <= a < 2 ^ 64 → RegionsTree.to_size_t a = a.
Proof. intros Ha. unfold RegionsTree.to_size_t. by rewrite Z.mod_small. Qed.

Lemma call_until_false_collect {R : Type} (out acc : list R) :
  RegionsTree.call_until_false RegionsTree.collect acc out = acc ++ out.
Proof.
  revert acc. induction out as [|r out IH]; intros acc; simpl.
  - by rewrite app_nil_r.
  - by rewrite IH, <- app_assoc.
Qed.

(** A visit whose callback is a step on local variables followed by a call
    of [func] on the region the step emits calls [func] on the regions of
    the scan, in order, until [func] returns [false]. *)
Lemma visit_in_order_scan {L R S : Type} (Inv : L → Prop)
    (step : L → RegionsTree.Node → L * option R)
    (lam : (L * S) → RegionsTree.Node → option ((L * S) * bool))
    (func : S → R → S * bool) :
  (∀ l node, Inv l → Inv (step l node).1) →
  (∀ l s node, Inv l →
     ∃ l2, Inv l2
           ∧ lam (l, s) node =
               match (step l node).2 with
               | None => Some (((step l node).1, s), true)
               | Some r =>
                   Some ((if (func s r).2 then (step l node).1 else l2,
                          (func s r).1), (func s r).2)
               end) →
  ∀ nodes l s, Inv l →
    ∃ l', Inv l'
          ∧ RegionsTree.visit_in_order lam nodes (l, s)
            = Some (l', RegionsTree.call_until_false func s
                          (RegionsTree.scan step l nodes)).
Proof.
  intros Hstep Hlam nodes.
  induction nodes as [|node rest IH]; intros l s Hl; simpl; [eauto|].
  destruct (Hlam l s node Hl) as (l2 & Hl2 & ->).
  specialize (Hstep l node Hl).
  destruct (step l node) as [l1 [r|]]; simpl in *.
  - destruct (func s r) as [s' [|]]; simpl; [by apply IH | eauto].
  - by apply IH.
Qed.

Section RegionsTreeProperties.

Variables Released Committed : Z.
Variable storage_is_invalid : RegionsTree.StackIndex → bool.
Variable storage_get : RegionsTree.StackIndex → RegionsTree.NativeCallStack.
Variable empty_stack : RegionsTree.NativeCallStack.

Local Abbreviation released := (RegionsTree.released_node Released).
Local Abbreviation committed := (RegionsTree.committed_node Committed).
Local Abbreviation stack_of :=
  (RegionsTree.stack_of_node storage_is_invalid storage_get empty_stack).
Local Abbreviation reserved_lambda :=
  (RegionsTree.visit_reserved_lambda Released storage_is_invalid storage_get
     empty_stack).
Local Abbreviation reserved_step :=
  (RegionsTree.reserved_step Released storage_is_invalid storage_get empty_stack).
Local Abbreviation reserved_regions :=
  (RegionsTree.reserved_regions Released storage_is_invalid storage_get
     empty_stack).
Local Abbreviation committed_lambda :=
  (RegionsTree.visit_committed_lambda Committed storage_is_invalid storage_get
     empty_stack).
Local Abbreviation committed_step :=
  (RegionsTree.committed_step Committed storage_is_invalid storage_get
     empty_stack).
Local Abbreviation committed_regions :=
  (RegionsTree.committed_regions Committed storage_is_invalid storage_get
     empty_stack).
Local Abbreviation committed_segments :=
  (RegionsTree.committed_segments Committed storage_is_invalid storage_get
     empty_stack).

Lemma reserved_step_ok (l : RegionsTree.reserved_locals) (node : RegionsTree.Node) :
  RegionsTree.reserved_locals_ok l →
  RegionsTree.reserved_locals_ok (reserved_step l node).1.
Proof.
  intros [Hlog Hprev]. unfold RegionsTree.reserved_step.
  destruct (RegionsTree.r_prev l) as [p|].
  - destruct Hprev as (b & -> & Hsize). simpl.
    destruct (released node || _); [destruct (_ =? 0); [|destruct (released node)]|];
      (split; [reflexivity|]); simpl; auto.
    + exists node. by rewrite Z.sub_diag.
    + by exists b.
  - destruct (released node || _); [destruct (0 =? 0); [|destruct (released node)]|];
      (split; [reflexivity|]); simpl; auto.
    + exists node. by rewrite Z.sub_diag.
    + exists node. by rewrite Z.sub_diag.
Qed.

Lemma reserved_lambda_step {S : Type}
    (func : S → RegionsTree.ReservedMemoryRegion → S * bool)
    (l : RegionsTree.reserved_locals) (s : S) (node : RegionsTree.Node) :
  RegionsTree.reserved_locals_ok l →
  ∃ l2, RegionsTree.reserved_locals_ok l2
        ∧ reserved_lambda func (l, s) node =
            match (reserved_step l node).2 with
            | None => Some (((reserved_step l node).1, s), true)
            | Some r =>
                Some ((if (func s r).2 then (reserved_step l node).1 else l2,
                       (func s r).1), (func s r).2)
            end.
Proof.
  intros [Hlog Hprev].
  destruct l as [begin_node [p|] size log]; simpl in *; subst log.
  - destruct Hprev as (b & -> & ->).
    exists (RegionsTree.mkReservedLocals (Some b) (Some node)
              (RegionsTree.to_size_t (RegionsTree.key node - RegionsTree.key b)) []).
    split; [split; [reflexivity | by exists b]|].
    unfold RegionsTree.visit_reserved_lambda, RegionsTree.reserved_step. simpl.
    rewrite to_size_t_add_r, to_size_t_add_l.
    replace (RegionsTree.key p - RegionsTree.key b
             + (RegionsTree.key node - RegionsTree.key p))
      with (RegionsTree.key node - RegionsTree.key b) by lia.
    unfold RegionsTree.is_released_begin, RegionsTree.released_node,
      RegionsTree.out_tag, RegionsTree.stack_of_node. simpl.
    rewrite Z.eqb_refl.
    destruct (RegionsTree.state_type (RegionsTree.val_out node) =? Released);
      simpl;
      [|destruct (RegionsTree.state_mem_tag (RegionsTree.val_out b) =?
                  RegionsTree.state_mem_tag (RegionsTree.val_out node)); simpl;
        [reflexivity|]];
      (destruct (RegionsTree.to_size_t
                   (RegionsTree.key node - RegionsTree.key b) =? 0);
       simpl; [reflexivity|]);
      match goal with
      | |- context [func s ?r] => by destruct (func s r) as [s' [|]]
      end.
  - exists (RegionsTree.mkReservedLocals None None 0 []).
    split; [by split|].
    unfold RegionsTree.visit_reserved_lambda, RegionsTree.reserved_step. simpl.
    unfold RegionsTree.is_released_begin, RegionsTree.released_node,
      RegionsTree.out_tag. simpl.
    rewrite Z.eqb_refl.
    destruct (RegionsTree.state_type (RegionsTree.val_out node) =? Released);
      simpl; [|reflexivity].
    unfold RegionsTree.to_size_t. by rewrite Z.sub_diag.
Qed.

Lemma visit_reserved_regions_state_scan {S : Type}
    (func : S → RegionsTree.ReservedMemoryRegion → S * bool) (s : S)
    (tree : list RegionsTree.Node) :
  ∃ l, RegionsTree.reserved_locals_ok l
       ∧ RegionsTree.visit_reserved_regions_state Released storage_is_invalid
           storage_get empty_stack func s tree
         = Some (l, RegionsTree.call_until_false func s
                      (RegionsTree.scan reserved_step
                         (RegionsTree.mkReservedLocals None None 0 []) tree)).
Proof.
  apply (visit_in_order_scan RegionsTree.reserved_locals_ok reserved_step
           (reserved_lambda func) func).
  - apply reserved_step_ok.
  - intros l s' node. apply reserved_lambda_step.
  - by split.
Qed.

Lemma reserved_regions_scan (tree : list RegionsTree.Node) :
  reserved_regions tree
  = Some (RegionsTree.scan reserved_step
            (RegionsTree.mkReservedLocals None None 0 []) tree).
Proof.
  unfold RegionsTree.reserved_regions, RegionsTree.visit_reserved_regions.
  destruct (visit_reserved_regions_state_scan RegionsTree.collect [] tree)
    as (l & _ & ->).
  simpl. by rewrite call_until_false_collect.
Qed.

(** X7: [visit_reserved_regions] never dereferences an invalid
    [NodeHelper], whatever the nodes of the tree, and calls [func] on the
    regions it would report to a callback that always returns [true], in
    the same order, until [func] returns [false]. *)
Theorem visit_reserved_regions_calls {S : Type}
    (func : S → RegionsTree.ReservedMemoryRegion → S * bool) (s : S)
    (tree : list RegionsTree.Node) :
  ∃ regions,
    reserved_regions tree = Some regions
    ∧ RegionsTree.visit_reserved_regions Released storage_is_invalid
        storage_get empty_stack func s tree
      = Some (RegionsTree.call_until_false func s regions).
Proof.
  eexists. split; [apply reserved_regions_scan|].
  unfold RegionsTree.visit_reserved_regions.
  by destruct (visit_reserved_regions_state_scan func s tree) as (l & _ & ->).
Qed.

(** X8: the size [visit_reserved_regions] adds up node by node is always
    the distance from the begin node, also when the [size_t] arithmetic
    wraps around: the debug message "size differ" is never logged. *)
Theorem visit_reserved_regions_sizes_agree {S : Type}
    (func : S → RegionsTree.ReservedMemoryRegion → S * bool) (s : S)
    (tree : list RegionsTree.Node) :
  ∃ l s',
    RegionsTree.visit_reserved_regions_state Released storage_is_invalid
      storage_get empty_stack func s tree = Some (l, s')
    ∧ RegionsTree.r_log l = [].
Proof.
  destruct (visit_reserved_regions_state_scan func s tree) as (l & [Hlog _] & ->).
  eauto.
Qed.

Variable contain_address : RegionsTree.ReservedMemoryRegion → Z → bool.
Variable default_region : RegionsTree.ReservedMemoryRegion.

Lemma call_contain_region (addr : Z) (rmr : RegionsTree.ReservedMemoryRegion)
    (regions : list RegionsTree.ReservedMemoryRegion) :
  RegionsTree.call_until_false (RegionsTree.contain_region contain_address addr)
    rmr regions
  = default rmr (List.find (λ r, contain_address r addr) regions).
Proof.
  induction regions as [|r regions IH]; simpl; [reflexivity|].
  change (RegionsTree.contain_region contain_address addr rmr r)
    with (if contain_address r addr then (r, false) else (rmr, true)).
  by destruct (contain_address r addr).
Qed.

(** X11: [find_reserved_region] returns the first of the reserved regions
    of the tree, in the order of the visit, that contains the address, and
    the default-constructed region when none does. *)
Theorem find_reserved_region_first (addr : Z) (tree : list RegionsTree.Node) :
  ∃ regions,
    reserved_regions tree = Some regions
    ∧ RegionsTree.find_reserved_region Released storage_is_invalid storage_get
        empty_stack contain_address default_region addr tree
      = Some (default default_region
                (List.find (λ r, contain_address r addr) regions)).
Proof.
  eexists. split; [apply reserved_regions_scan|].
  unfold RegionsTree.find_reserved_region, RegionsTree.visit_reserved_regions.
  destruct (visit_reserved_regions_state_scan
              (RegionsTree.contain_region contain_address addr)
              default_region tree) as (l & _ & ->).
  rewrite call_contain_region. reflexivity.
Qed.

Local Abbreviation reserved_from_to :=
  (RegionsTree.reserved_from_to Released storage_is_invalid storage_get
     empty_stack).

Lemma reserved_step_idle (l : RegionsTree.reserved_locals)
    (n : RegionsTree.Node) :
  RegionsTree.r_prev l = None →
  reserved_step l n =
    (RegionsTree.mkReservedLocals (Some n)
       (if released n then None else Some n) 0 [], None).
Proof.
  intros Hprev. unfold RegionsTree.reserved_step. rewrite Hprev, Z.eqb_refl.
  simpl. rewrite orb_false_r. by destruct (released n).
Qed.

Lemma reserved_step_active (l : RegionsTree.reserved_locals)
    (n p b : RegionsTree.Node) :
  RegionsTree.r_prev l = Some p →
  RegionsTree.r_begin_node l = Some b →
  0 < RegionsTree.key n - RegionsTree.key b < 2 ^ 64 →
  reserved_step l n =
    if released n || negb (RegionsTree.out_tag b =? RegionsTree.out_tag n)
    then (if released n
          then RegionsTree.mkReservedLocals None None 0 []
          else RegionsTree.mkReservedLocals (Some n) (Some n) 0 [],
          Some (RegionsTree.mkReservedMemoryRegion (RegionsTree.key b)
                  (RegionsTree.key n - RegionsTree.key b) (stack_of n)
                  (RegionsTree.out_tag b)))
    else (RegionsTree.mkReservedLocals (Some b) (Some n)
            (RegionsTree.key n - RegionsTree.key b) [], None).
Proof.
  intros Hprev Hbegin Hsize. unfold RegionsTree.reserved_step.
  rewrite Hprev, Hbegin. simpl. rewrite to_size_t_small by lia.
  destruct (Z.eqb_spec (RegionsTree.key n - RegionsTree.key b) 0); [lia|].
  reflexivity.
Qed.

Lemma scan_reserved_shape (tree rest : list RegionsTree.Node) :
  ∀ (l : RegionsTree.reserved_locals) (lo : Z),
    StronglySorted (λ a b, RegionsTree.key a < RegionsTree.key b) rest →
    Forall (λ n, 0 <= RegionsTree.key n < 2 ^ 64) rest →
    Forall (λ n, n ∈ tree) rest →
    match RegionsTree.r_prev l with
    | Some p =>
        ∃ b, RegionsTree.r_begin_node l = Some b
             ∧ b ∈ tree ∧ released b = false
             ∧ 0 <= RegionsTree.key b <= RegionsTree.key p
             ∧ lo <= RegionsTree.key b
             ∧ Forall (λ n, RegionsTree.key p < RegionsTree.key n) rest
    | None => Forall (λ n, lo <= RegionsTree.key n) rest
    end →
    Forall (λ r, ∃ b c, b ∈ tree ∧ c ∈ tree ∧ reserved_from_to b c r)
      (RegionsTree.scan reserved_step l rest)
    ∧ Forall (λ r, lo <= RegionsTree.rmr_base r)
        (RegionsTree.scan reserved_step l rest)
    ∧ RegionsTree.reserved_disjoint (RegionsTree.scan reserved_step l rest).
Proof.
  induction rest as [|n rest IH]; intros l lo Hsorted Hrange Hin Hl; simpl.
  { split; [constructor|]. split; constructor. }
  apply StronglySorted_inv in Hsorted as [Hsorted Hn].
  apply Forall_cons in Hrange as [Hnrange Hrange].
  apply Forall_cons in Hin as [Hnin Hin].
  destruct (RegionsTree.r_prev l) as [p|] eqn:Hprev.
  - destruct Hl as (b & Hbegin & Hb & Hrel & Hkeys & Hlo & [Hpn Hprest]%Forall_cons).
    rewrite (reserved_step_active l n p b Hprev Hbegin) by lia.
    destruct (released n || negb (RegionsTree.out_tag b =? RegionsTree.out_tag n))
      eqn:Hcond; simpl.
    + assert (Hshape_n : reserved_from_to b n
                (RegionsTree.mkReservedMemoryRegion (RegionsTree.key b)
                   (RegionsTree.key n - RegionsTree.key b) (stack_of n)
                   (RegionsTree.out_tag b))).
      { split; [exact Hrel|]. split; [lia|]. do 4 (split; [reflexivity|]).
        apply orb_prop in Hcond as [Hreln|Htag]; [by left|right].
        apply negb_true_iff, Z.eqb_neq in Htag. congruence. }
      destruct (released n) eqn:Hreln.
      * destruct (IH (RegionsTree.mkReservedLocals None None 0 [])
                    (RegionsTree.key n) Hsorted Hrange Hin)
          as (Hshape & Hbase & Hdisj).
        { simpl. eapply Forall_impl; [exact Hn|]. simpl. intros m Hm. lia. }
        split; [constructor; [by exists b, n | exact Hshape]|]. split.
        -- constructor; [simpl; lia|].
           eapply Forall_impl; [exact Hbase|]. simpl. intros r Hr. lia.
        -- constructor; [exact Hdisj|].
           eapply Forall_impl; [exact Hbase|]. simpl. intros r Hr. lia.
      * destruct (IH (RegionsTree.mkReservedLocals (Some n) (Some n) 0 [])
                    (RegionsTree.key n) Hsorted Hrange Hin)
          as (Hshape & Hbase & Hdisj).
        { simpl. exists n. repeat split; auto; lia. }
        split; [constructor; [by exists b, n | exact Hshape]|]. split.
        -- constructor; [simpl; lia|].
           eapply Forall_impl; [exact Hbase|]. simpl. intros r Hr. lia.
        -- constructor; [exact Hdisj|].
           eapply Forall_impl; [exact Hbase|]. simpl. intros r Hr. lia.
    + apply (IH _ lo Hsorted Hrange Hin). simpl.
      exists b. repeat split; auto; lia.
  - apply Forall_cons in Hl as [Hlon Hlorest].
    rewrite (reserved_step_idle l n Hprev). simpl.
    apply (IH _ lo Hsorted Hrange Hin). simpl.
    destruct (released n) eqn:Hreln; [exact Hlorest|].
    exists n. repeat split; auto; lia.
Qed.

(** X9: in a tree whose positions ascend, every region that
    [visit_reserved_regions] reports lies between two nodes of the tree:
    it begins at a node that does not begin released memory, with the tag
    of that node, and ends at a later node, which begins released memory
    or memory of another tag; its size is not zero.  The regions are
    reported in ascending order and do not overlap. *)
Theorem reserved_regions_between_nodes (tree : list RegionsTree.Node) :
  RegionsTree.keys_ascending tree →
  ∃ regions,
    reserved_regions tree = Some regions
    ∧ Forall (λ r, 0 < RegionsTree.rmr_size r
                   ∧ ∃ b c, b ∈ tree ∧ c ∈ tree ∧ reserved_from_to b c r)
        regions
    ∧ RegionsTree.reserved_disjoint regions.
Proof.
  intros [Hsorted Hrange].
  eexists. split; [apply reserved_regions_scan|].
  destruct (scan_reserved_shape tree tree
              (RegionsTree.mkReservedLocals None None 0 []) 0 Hsorted Hrange)
    as (Hshape & _ & Hdisj).
  - by apply Forall_forall.
  - simpl. eapply Forall_impl; [exact Hrange|]. simpl. intros n Hn. lia.
  - split; [|exact Hdisj].
    eapply Forall_impl; [exact Hshape|]. simpl.
    intros r (b & c & Hb & Hc & Hr). split; [|eauto].
    destruct Hr as (_ & Hlt & _ & -> & _). lia.
Qed.

(** X10: for reservations that do not touch, each a node that begins
    memory that is not released and a later node that begins released
    memory, [visit_reserved_regions] reports exactly those reservations,
    each from its first node to its second, with the tag of the first. *)
Theorem reserved_regions_of_reservations
    (reservations : list (RegionsTree.Node * RegionsTree.Node)) :
  Forall (RegionsTree.reservation_ok Released) reservations →
  reserved_regions (RegionsTree.reservation_nodes reservations)
  = Some (RegionsTree.reservation_region storage_is_invalid storage_get
            empty_stack <$> reservations).
Proof.
  intros Hok. rewrite reserved_regions_scan. f_equal.
  induction Hok as [|[b c] reservations (Hb & Hc & Hsize) _ IH]; [reflexivity|].
  simpl in *.
  rewrite reserved_step_idle by reflexivity. simpl. rewrite Hb.
  rewrite (reserved_step_active _ c b b) by (reflexivity || lia).
  rewrite Hc. simpl. by rewrite IH.
Qed.

(** ** Committed regions *)

Lemma committed_lambda_step {S : Type}
    (func : S → RegionsTree.CommittedMemoryRegion → S * bool)
    (l : RegionsTree.committed_locals) (s : S) (node : RegionsTree.Node) :
  True →
  ∃ l2 : RegionsTree.committed_locals,
    True
    ∧ committed_lambda func (l, s) node =
        match (committed_step l node).2 with
        | None => Some (((committed_step l node).1, s), true)
        | Some r =>
            Some ((if (func s r).2 then (committed_step l node).1 else l2,
                   (func s r).1), (func s r).2)
        end.
Proof.
  intros _. destruct l as [[p|] base size].
  - exists (RegionsTree.mkCommittedLocals None (RegionsTree.key p) 0).
    split; [done|].
    unfold RegionsTree.visit_committed_lambda, RegionsTree.committed_step.
    simpl. unfold RegionsTree.is_committed_begin, RegionsTree.committed_node,
      RegionsTree.stack_of_node. simpl.
    destruct (Z.land (RegionsTree.state_type (RegionsTree.val_out p)) Committed
              >=? 2); simpl; [|reflexivity].
    destruct (Z.land (RegionsTree.state_type (RegionsTree.val_out node)) Committed
              >=? 2); simpl; [reflexivity|].
    match goal with
    | |- context [func s ?r] => by destruct (func s r) as [s' [|]]
    end.
  - exists (RegionsTree.mkCommittedLocals None base size). split; [done|].
    reflexivity.
Qed.

Lemma visit_committed_regions_scan {S : Type}
    (rgn : RegionsTree.ReservedMemoryRegion)
    (func : S → RegionsTree.CommittedMemoryRegion → S * bool) (s : S)
    (visited : list RegionsTree.Node) :
  RegionsTree.visit_committed_regions Committed storage_is_invalid storage_get
    empty_stack rgn func s visited
  = Some (RegionsTree.call_until_false func s
            (RegionsTree.scan committed_step
               (RegionsTree.mkCommittedLocals None
                  (RegionsTree.to_size_t (RegionsTree.rmr_base rgn)) 0)
               visited)).
Proof.
  unfold RegionsTree.visit_committed_regions.
  destruct (visit_in_order_scan (λ _, True) committed_step
              (committed_lambda func) func (λ _ _ _, I)
              (λ l s' node, committed_lambda_step func l s' node) visited
              (RegionsTree.mkCommittedLocals None
                 (RegionsTree.to_size_t (RegionsTree.rmr_base rgn)) 0) s I)
    as (l & _ & ->).
  reflexivity.
Qed.

Lemma committed_regions_scan (rgn : RegionsTree.ReservedMemoryRegion)
    (visited : list RegionsTree.Node) :
  committed_regions rgn visited
  = Some (RegionsTree.scan committed_step
            (RegionsTree.mkCommittedLocals None
               (RegionsTree.to_size_t (RegionsTree.rmr_base rgn)) 0)
            visited).
Proof.
  unfold RegionsTree.committed_regions.
  by rewrite visit_committed_regions_scan, call_until_false_collect.
Qed.

(** X12: [visit_committed_regions] calls [func] on the regions it would
    report to a callback that always returns [true], in the same order,
    until [func] returns [false]; it dereferences no invalid
    [NodeHelper]. *)
Theorem visit_committed_regions_calls {S : Type}
    (rgn : RegionsTree.ReservedMemoryRegion)
    (func : S → RegionsTree.CommittedMemoryRegion → S * bool) (s : S)
    (visited : list RegionsTree.Node) :
  ∃ regions,
    committed_regions rgn visited = Some regions
    ∧ RegionsTree.visit_committed_regions Committed storage_is_invalid
        storage_get empty_stack rgn func s visited
      = Some (RegionsTree.call_until_false func s regions).
Proof.
  eexists. split; [apply committed_regions_scan|].
  apply visit_committed_regions_scan.
Qed.

(** The step after a previous node, when the sizes do not wrap around. *)
Lemma committed_step_Some (p n : RegionsTree.Node) (base size : Z) :
  0 <= size → size + (RegionsTree.key n - RegionsTree.key p) < 2 ^ 64 →
  RegionsTree.key p <= RegionsTree.key n →
  committed_step (RegionsTree.mkCommittedLocals (Some p) base size) n =
    if committed p
    then if committed n
         then (RegionsTree.mkCommittedLocals (Some n) (RegionsTree.key p)
                 (size + (RegionsTree.key n - RegionsTree.key p)), None)
         else (RegionsTree.mkCommittedLocals (Some n) (RegionsTree.key p) 0,
               Some (RegionsTree.mkCommittedMemoryRegion (RegionsTree.key p)
                       (size + (RegionsTree.key n - RegionsTree.key p))
                       (stack_of n)))
    else (RegionsTree.mkCommittedLocals (Some n) (RegionsTree.key p) size, None).
Proof.
  intros Hsize Hfit Hkeys. unfold RegionsTree.committed_step. simpl.
  rewrite to_size_t_add_r, to_size_t_small by lia. reflexivity.
Qed.

Lemma committed_step_None (n : RegionsTree.Node) (base size : Z) :
  committed_step (RegionsTree.mkCommittedLocals None base size) n
  = (RegionsTree.mkCommittedLocals (Some n) base size, None).
Proof. reflexivity. Qed.

Lemma keys_ascending_cons (p : RegionsTree.Node) (rest : list RegionsTree.Node) :
  RegionsTree.keys_ascending (p :: rest) →
  0 <= RegionsTree.key p < 2 ^ 64
  ∧ Forall (λ n, RegionsTree.key p < RegionsTree.key n < 2 ^ 64) rest
  ∧ RegionsTree.keys_ascending rest.
Proof.
  intros [[Hsorted Hp]%StronglySorted_inv [Hrange Hrest]%Forall_cons].
  split; [exact Hrange|]. split; [|by split].
  rewrite Forall_forall in *. intros n Hn.
  specialize (Hp n Hn). specialize (Hrest n Hn). simpl in *. lia.
Qed.

Lemma scan_cons {L R : Type} (step : L → RegionsTree.Node → L * option R)
    (l : L) (n : RegionsTree.Node) (rest : list RegionsTree.Node) :
  RegionsTree.scan step l (n :: rest)
  = option_list (step l n).2 ++ RegionsTree.scan step (step l n).1 rest.
Proof. reflexivity. Qed.

Lemma committed_segments_cons (p n : RegionsTree.Node)
    (rest : list RegionsTree.Node) :
  committed_segments (p :: n :: rest)
  = (if committed p
     then [RegionsTree.mkCommittedMemoryRegion (RegionsTree.key p)
             (RegionsTree.key n - RegionsTree.key p) (stack_of n)]
     else [])
    ++ committed_segments (n :: rest).
Proof. reflexivity. Qed.

Lemma scan_committed_isolated (rest : list RegionsTree.Node) :
  ∀ (prev : option RegionsTree.Node) (base : Z),
    RegionsTree.keys_ascending (option_list prev ++ rest) →
    Sorted (λ p c, committed p = true → committed c = false)
      (option_list prev ++ rest) →
    RegionsTree.scan committed_step
      (RegionsTree.mkCommittedLocals prev base 0) rest
    = committed_segments (option_list prev ++ rest).
Proof.
  induction rest as [|n rest IH]; intros prev base Hkeys Hiso.
  { by destruct prev. }
  rewrite scan_cons. destruct prev as [p|].
  - change (option_list (Some p) ++ n :: rest) with (p :: n :: rest) in *.
    apply keys_ascending_cons in Hkeys as (Hp & [Hpn _]%Forall_cons & Hkeys).
    apply Sorted_inv in Hiso as [Hiso Hhd]. apply HdRel_inv in Hhd.
    rewrite committed_step_Some, committed_segments_cons by lia.
    destruct (committed p) eqn:Hcp.
    + rewrite (Hhd eq_refl). cbn [fst snd option_list option_rect].
      rewrite Z.add_0_l. cbn [app]. f_equal.
      exact (IH (Some n) _ Hkeys Hiso).
    + cbn [fst snd app option_list option_rect].
      exact (IH (Some n) _ Hkeys Hiso).
  - rewrite committed_step_None. cbn [fst snd app option_list option_rect].
    exact (IH (Some n) _ Hkeys Hiso).
Qed.

(** X13: when the positions of the visited nodes ascend and no two
    consecutive nodes both begin committed memory, the regions
    [visit_committed_regions] reports are exactly the committed segments:
    one from each node that begins committed memory to the next node. *)
Theorem committed_regions_isolated (rgn : RegionsTree.ReservedMemoryRegion)
    (visited : list RegionsTree.Node) :
  RegionsTree.keys_ascending visited →
  Sorted (λ p c, committed p = true → committed c = false) visited →
  committed_regions rgn visited = Some (committed_segments visited).
Proof.
  intros Hkeys Hiso. rewrite committed_regions_scan. f_equal.
  exact (scan_committed_isolated visited None _ Hkeys Hiso).
Qed.

Lemma committed_bytes_cons (r : RegionsTree.CommittedMemoryRegion)
    (regions : list RegionsTree.CommittedMemoryRegion) :
  RegionsTree.committed_bytes (r :: regions)
  = RegionsTree.cmr_size r + RegionsTree.committed_bytes regions.
Proof. reflexivity. Qed.

Lemma scan_committed_bytes (rest : list RegionsTree.Node) :
  ∀ (prev : option RegionsTree.Node) (base size : Z),
    RegionsTree.keys_ascending (option_list prev ++ rest) →
    (∀ n, last (option_list prev ++ rest) = Some n → committed n = false) →
    match prev with
    | Some p => 0 <= size <= RegionsTree.key p
                ∧ (committed p = false → size = 0)
    | None => size = 0
    end →
    RegionsTree.committed_bytes
      (RegionsTree.scan committed_step
         (RegionsTree.mkCommittedLocals prev base size) rest)
    = size + RegionsTree.committed_bytes
               (committed_segments (option_list prev ++ rest)).
Proof.
  induction rest as [|n rest IH]; intros prev base size Hkeys Hlast Hsize.
  { destruct prev as [p|]; cbn in *; [|lia].
    destruct Hsize as [_ Hzero]. rewrite Hzero by auto. reflexivity. }
  rewrite scan_cons. destruct prev as [p|].
  - change (option_list (Some p) ++ n :: rest) with (p :: n :: rest) in *.
    destruct Hsize as [Hsize Hzero].
    apply keys_ascending_cons in Hkeys as (Hp & [Hpn _]%Forall_cons & Hkeys).
    assert (Hlast' : ∀ m, last (option_list (Some n) ++ rest) = Some m
                          → committed m = false) by exact Hlast.
    rewrite committed_step_Some, committed_segments_cons by lia.
    destruct (committed p) eqn:Hcp.
    + destruct (committed n) eqn:Hcn; cbn [fst snd app option_list option_rect].
      * rewrite (IH (Some n) _ _ Hkeys Hlast'), committed_bytes_cons.
        -- cbn [RegionsTree.cmr_size app option_list option_rect]. lia.
        -- split; [lia|]. congruence.
      * rewrite !committed_bytes_cons.
        rewrite (IH (Some n) _ _ Hkeys Hlast').
        -- cbn [RegionsTree.cmr_size app option_list option_rect]. lia.
        -- split; [lia|]. done.
    + cbn [fst snd app option_list option_rect].
      rewrite (IH (Some n) _ _ Hkeys Hlast'); [reflexivity|].
      split; [lia|]. intros _. by apply Hzero.
  - subst size. rewrite committed_step_None. cbn [fst snd app option_list option_rect].
    change (option_list None ++ n :: rest)
      with (option_list (Some n) ++ rest) in *.
    pose proof (keys_ascending_cons _ _ Hkeys) as (Hn & _ & _).
    rewrite (IH (Some n) _ _ Hkeys Hlast); [reflexivity|].
    split; [lia|done].
Qed.

(** X14: when the positions of the visited nodes ascend and the last node
    does not begin committed memory, the sizes of the regions
    [visit_committed_regions] reports add up to the sizes of the committed
    segments, without wrapping around. *)
Theorem committed_regions_bytes (rgn : RegionsTree.ReservedMemoryRegion)
    (visited : list RegionsTree.Node) :
  RegionsTree.keys_ascending visited →
  (∀ n, last visited = Some n → committed n = false) →
  ∃ regions,
    committed_regions rgn visited = Some regions
    ∧ RegionsTree.committed_bytes regions
      = RegionsTree.committed_bytes (committed_segments visited).
Proof.
  intros Hkeys Hlast. eexists. split; [apply committed_regions_scan|].
  by rewrite (scan_committed_bytes visited None _ _ Hkeys Hlast).
Qed.

Lemma scan_committed_run (run : list RegionsTree.Node) :
  ∀ (p c : RegionsTree.Node) (base size : Z),
    Forall (λ n, committed n = true) (p :: run) →
    committed c = false →
    RegionsTree.keys_ascending (p :: run ++ [c]) →
    0 <= size <= RegionsTree.key p →
    RegionsTree.scan committed_step
      (RegionsTree.mkCommittedLocals (Some p) base size) (run ++ [c])
    = [RegionsTree.mkCommittedMemoryRegion
         (RegionsTree.key (default p (last run)))
         (size + (RegionsTree.key c - RegionsTree.key p)) (stack_of c)].
Proof.
  induction run as [|n run IH]; intros p c base size Hrun Hc Hkeys Hsize;
    apply Forall_cons in Hrun as [Hp Hrun];
    apply keys_ascending_cons in Hkeys as (Hprange & Hpn & Hkeys).
  - apply Forall_cons in Hpn as [Hpn _].
    change ([] ++ [c]) with [c]. rewrite scan_cons.
    rewrite committed_step_Some by lia. rewrite Hp, Hc. reflexivity.
  - apply Forall_cons in Hpn as [Hpn _].
    change ((n :: run) ++ [c]) with (n :: run ++ [c]). rewrite scan_cons.
    rewrite committed_step_Some by lia.
    pose proof Hrun as [Hn _]%Forall_cons. rewrite Hp, Hn.
    cbn [fst snd app option_list option_rect].
    rewrite (IH n c) by (auto; lia).
    f_equal. f_equal; [|lia].
    destruct run as [|r run]; [reflexivity|].
    change (last (n :: r :: run)) with (last (r :: run)).
    destruct (last (r :: run)) eqn:Hl; [reflexivity|].
    by apply last_None in Hl.
Qed.

(** X15: for a run of consecutive nodes that all begin committed memory,
    closed by a node [c] that does not, [visit_committed_regions] reports
    one region: its size is the distance from the first node of the run to
    [c], its base is the position of the last node of the run, and its
    stack is that of [c]. *)
Theorem committed_regions_run (rgn : RegionsTree.ReservedMemoryRegion)
    (first c : RegionsTree.Node) (run : list RegionsTree.Node) :
  Forall (λ n, committed n = true) (first :: run) →
  committed c = false →
  RegionsTree.keys_ascending (first :: run ++ [c]) →
  committed_regions rgn (first :: run ++ [c])
  = Some [RegionsTree.mkCommittedMemoryRegion
            (RegionsTree.key (default first (last run)))
            (RegionsTree.key c - RegionsTree.key first) (stack_of c)].
Proof.
  intros Hrun Hc Hkeys. rewrite committed_regions_scan. f_equal.
  pose proof (keys_ascending_cons _ _ Hkeys) as (Hfirst & _).
  rewrite scan_cons, committed_step_None. cbn [fst snd app option_list option_rect].
  rewrite (scan_committed_run run first c) by (auto; lia).
  by rewrite Z.add_0_l.
Qed.

End RegionsTreeProperties.

(** ** The visitors on the trees of the tests *)

Ltac keys_ascending_concrete :=
  split; cbn; repeat constructor; cbn; lia.

(** The tree of the four reservations of the test [VisitReservedRegions]. *)
Lemma reserved_regions_between_nodes_witness :
  let tree := RegionsTree.reservation_nodes test_reservations in
  RegionsTree.keys_ascending tree
  ∧ ∃ regions,
      RegionsTree.reserved_regions 0 test_is_invalid test_get [] tree
      = Some regions
      ∧ Forall (λ r, 0 < RegionsTree.rmr_size r
                     ∧ ∃ b c, b ∈ tree ∧ c ∈ tree
                              ∧ RegionsTree.reserved_from_to 0 test_is_invalid
                                  test_get [] b c r)
          regions
      ∧ RegionsTree.reserved_disjoint regions.
Proof.
  assert (Hkeys : RegionsTree.keys_ascending
                    (RegionsTree.reservation_nodes test_reservations))
    by keys_ascending_concrete.
  split; [exact Hkeys|].
  exact (reserved_regions_between_nodes 0 test_is_invalid test_get [] _ Hkeys).
Defined.

(** The four reservations of the test [VisitReservedRegions]. *)
Lemma reserved_regions_of_reservations_witness :
  Forall (RegionsTree.reservation_ok 0) test_reservations
  ∧ RegionsTree.reserved_regions 0 test_is_invalid test_get []
      (RegionsTree.reservation_nodes test_reservations)
    = Some (RegionsTree.reservation_region test_is_invalid test_get []
              <$> test_reservations).
Proof.
  assert (Hok : Forall (RegionsTree.reservation_ok 0) test_reservations).
  { repeat constructor; vm_compute; try reflexivity; try discriminate. }
  split; [exact Hok|].
  exact (reserved_regions_of_reservations 0 test_is_invalid test_get [] _ Hok).
Defined.

(** The reservation of the test [VisitCommittedRegions] with its four
    commits. *)
Lemma committed_regions_isolated_witness :
  let rgn := RegionsTree.mkReservedMemoryRegion 1000 50 [] 7 in
  RegionsTree.keys_ascending test_committed_nodes
  ∧ Sorted (λ p c, RegionsTree.committed_node 3 p = true
                   → RegionsTree.committed_node 3 c = false)
      test_committed_nodes
  ∧ RegionsTree.committed_regions 3 test_is_invalid test_get [] rgn
      test_committed_nodes
    = Some (RegionsTree.committed_segments 3 test_is_invalid test_get []
              test_committed_nodes).
Proof.
  assert (Hkeys : RegionsTree.keys_ascending test_committed_nodes)
    by keys_ascending_concrete.
  assert (Hiso : Sorted (λ p c, RegionsTree.committed_node 3 p = true
                                → RegionsTree.committed_node 3 c = false)
                   test_committed_nodes).
  { repeat constructor; vm_compute; intros; congruence. }
  split; [exact Hkeys|]. split; [exact Hiso|].
  exact (committed_regions_isolated 3 test_is_invalid test_get [] _ _ Hkeys Hiso).
Defined.

(** Two commits that touch, closed by a node at 1025. *)
Lemma committed_regions_bytes_witness :
  let rgn := RegionsTree.mkReservedMemoryRegion 1000 50 [] 7 in
  let visited :=
    test_committed_run ++ [RegionsTree.mkNode 1025 test_committed test_reserved] in
  RegionsTree.keys_ascending visited
  ∧ (∀ n, last visited = Some n → RegionsTree.committed_node 3 n = false)
  ∧ ∃ regions,
      RegionsTree.committed_regions 3 test_is_invalid test_get [] rgn visited
      = Some regions
      ∧ RegionsTree.committed_bytes regions
        = RegionsTree.committed_bytes
            (RegionsTree.committed_segments 3 test_is_invalid test_get []
               visited).
Proof.
  intros rgn visited.
  assert (Hkeys : RegionsTree.keys_ascending visited)
    by keys_ascending_concrete.
  assert (Hlast : ∀ n, last visited = Some n
                       → RegionsTree.committed_node 3 n = false).
  { intros n [= <-]. reflexivity. }
  split; [exact Hkeys|]. split; [exact Hlast|].
  exact (committed_regions_bytes 3 test_is_invalid test_get [] rgn _ Hkeys Hlast).
Defined.

(** Two commits that touch, closed by a node at 1025: one region of 15
    bytes is reported, with base 1015. *)
Lemma committed_regions_run_witness :
  let rgn := RegionsTree.mkReservedMemoryRegion 1000 50 [] 7 in
  let first := RegionsTree.mkNode 1010 test_reserved test_committed in
  let second :=
    RegionsTree.mkNode 1015 test_committed (RegionsTree.mkIntervalState 3 9 7) in
  let c := RegionsTree.mkNode 1025 test_committed test_reserved in
  Forall (λ n, RegionsTree.committed_node 3 n = true) [first; second]
  ∧ RegionsTree.committed_node 3 c = false
  ∧ RegionsTree.keys_ascending (first :: [second] ++ [c])
  ∧ RegionsTree.committed_regions 3 test_is_invalid test_get [] rgn
      (first :: [second] ++ [c])
    = Some [RegionsTree.mkCommittedMemoryRegion 1015 15 [5]].
Proof.
  intros rgn first second c.
  assert (Hrun : Forall (λ n, RegionsTree.committed_node 3 n = true)
                   [first; second]) by (repeat constructor).
  assert (Hkeys : RegionsTree.keys_ascending (first :: [second] ++ [c]))
    by keys_ascending_concrete.
  split; [exact Hrun|]. split; [reflexivity|]. split; [exact Hkeys|].
  exact (committed_regions_run 3 test_is_invalid test_get [] rgn first c
           [second] Hrun eq_refl Hkeys).
Defined.
